(** * Bandix dashboard: the client-side telemetry pipeline

    A shallow embedding of the polling scheduler, the demo history window,
    the stat aggregation, the device-table sort, the canvas chart, the
    duration and hostname formatters, the demo generators and the speed
    limit controls of the Bandix network monitor, in its two front ends:

    - the standalone script (app.js), called "vanilla" below;
    - the React application (bandixApi.ts, formatters.ts, ClientsTable.tsx,
      Index.tsx), called "React" below.

    JavaScript numbers: device counters and rates are integers on the wire
    and are modelled in [Z], which is exact for doubles up to 2^53 (the
    fractional rates of the demo generator of bandixApi.ts are outside the
    embedding; the one of app.js rounds them down); snapshot rates and
    canvas coordinates are fractional and are modelled in [Q], the rounding
    of doubles is not modelled.  A property that is absent from a JSON
    object is [None].  A null name or address behaves like an absent one
    wherever the code reads it; a null counter does not (it adds as 0) and
    is not represented. *)

From Stdlib Require Import String Ascii DecimalString DecimalPos.
From Stdlib Require Import List ZArith QArith Qminmax Qround Bool Lia Lqa.
From Stdlib Require Import Sorted Permutation.
From Stdlib Require OrderedTypeEx.
Import ListNotations.

Set Implicit Arguments.

(* ================================================================== *)
(** * Part I: the program                                              *)
(* ================================================================== *)

(** ** History window: generateDemoHistory (app.js, bandixApi.ts) *)

Module History.

(** types/bandix.ts: BandwidthSnapshot *)
Record BandwidthSnapshot : Type := mkSnapshot
  { timestamp : Z;
    download : Q;
    upload : Q }.

(** CONFIG.historyLength in app.js; the literals 59 and 60 in bandixApi.ts *)
Definition historyLength : nat := 60.

(** What one call reads from its environment: the clock, once
    ([Date.now()]), and the successive results of [Math.random()]. *)
Record Env : Type := mkEnv
  { now : Z;
    random : nat -> Q }.

(** The object literal pushed by the generator; [k] is the index of the
    first of its two random draws. *)
Definition demoPoint (ts : Z) (e : Env) (k : nat) : BandwidthSnapshot :=
  {| timestamp := ts;
     download := 20000000 + random e k * 40000000;
     upload := 5000000 + random e (S k) * 10000000 |}.

(** The array ([state.history] / [historyBuffer]) with a ghost log of
    every snapshot that was ever pushed onto it, in push order. *)
Record Buffer : Type := mkBuffer
  { items : list BandwidthSnapshot;
    appended : list BandwidthSnapshot }.

Definition empty : Buffer := {| items := []; appended := [] |}.

(** Array.prototype.push *)
Definition push (b : Buffer) (p : BandwidthSnapshot) : Buffer :=
  {| items := items b ++ [p]; appended := appended b ++ [p] |}.

(** Array.prototype.shift *)
Definition shift (b : Buffer) : Buffer :=
  {| items := tl (items b); appended := appended b |}.

(** [for (let i = n - 1; i >= 0; i--) push({timestamp: now - i * 1000, ...})] *)
Fixpoint initLoop (e : Env) (n k : nat) (b : Buffer) : Buffer :=
  match n with
  | O => b
  | S i => initLoop e i (k + 2)
             (push b (demoPoint (now e - Z.of_nat i * 1000) e k))
  end.

Definition generateDemoHistory (b : Buffer) (e : Env) : Buffer :=
  if (length (items b) =? 0)%nat then
    initLoop e historyLength 0 b
  else
    let b1 := push b (demoPoint (now e) e 0) in
    if (historyLength <? length (items b1))%nat then shift b1 else b1.

(** Successive calls, one per poll cycle, from the initial empty array. *)
Definition run (es : list Env) : Buffer :=
  fold_left generateDemoHistory es empty.

End History.

(** ** The JavaScript values and operators the code relies on *)

Module Js.

(** A number is an integer or NaN. *)
Inductive number : Type :=
| Fin (n : Z)
| NaN.

Inductive value : Type :=
| VUndefined
| VNumber (x : number)
| VString (s : string).

(** The errors the code can raise: a method call on a value that has no
    such method, and the [Error] objects thrown by the API client. *)
Inductive error : Type :=
| TypeError
| SyntaxError
| Error (message : string).

(** Result of evaluating code that may throw. *)
Inductive completion (A : Type) : Type :=
| Normal (a : A)
| Throw (e : error).
Arguments Normal {A} a.
Arguments Throw {A} e.

Definition bind {A B : Type} (c : completion A) (k : A -> completion B)
  : completion B :=
  match c with
  | Normal a => k a
  | Throw e => Throw e
  end.

(** [try { c } catch { handler }] for a handler that returns a value. *)
Definition try_catch {A : Type} (c : completion A) (handler : A) : A :=
  match c with
  | Normal a => a
  | Throw _ => handler
  end.

Definition add (x y : number) : number :=
  match x, y with
  | Fin a, Fin b => Fin (a + b)
  | _, _ => NaN
  end.

Definition sub (x y : number) : number :=
  match x, y with
  | Fin a, Fin b => Fin (a - b)
  | _, _ => NaN
  end.

(** ToNumber.  The only string the code ever subtracts is the empty
    string of the [?? ''] and [|| ''] fallbacks, which is 0; any other
    string is taken as non-numeric. *)
Definition ToNumber (v : value) : number :=
  match v with
  | VUndefined => NaN
  | VNumber x => x
  | VString s => if String.eqb s "" then Fin 0 else NaN
  end.

(** ToString: integers print in decimal. *)
Definition ToString (v : value) : string :=
  match v with
  | VUndefined => "undefined"
  | VNumber (Fin n) => NilZero.string_of_int (Z.to_int n)
  | VNumber NaN => "NaN"
  | VString s => s
  end.

(** ToBoolean *)
Definition truthy (v : value) : bool :=
  match v with
  | VUndefined => false
  | VNumber (Fin n) => negb (n =? 0)%Z
  | VNumber NaN => false
  | VString s => negb (String.eqb s "")
  end.

(** [v ?? d] *)
Definition nullish_coalesce (v d : value) : value :=
  match v with
  | VUndefined => d
  | _ => v
  end.

(** [v || d] *)
Definition logical_or (v d : value) : value :=
  if truthy v then v else d.

(** Reading a property that may be absent: [undefined] when it is. *)
Definition of_number (o : option Z) : value :=
  match o with
  | Some n => VNumber (Fin n)
  | None => VUndefined
  end.

Definition of_string (o : option string) : value :=
  match o with
  | Some s => VString s
  | None => VUndefined
  end.

(** ** String.prototype *)

Definition lowerChar (c : ascii) : ascii :=
  let n := nat_of_ascii c in
  if ((65 <=? n) && (n <=? 90))%nat then ascii_of_nat (n + 32) else c.

(** toLowerCase, on the ASCII letters *)
Fixpoint toLowerCase (s : string) : string :=
  match s with
  | EmptyString => EmptyString
  | String c r => String (lowerChar c) (toLowerCase r)
  end.

(** [s.split('.')[0]]: the text before the first dot *)
Fixpoint split_dot_head (s : string) : string :=
  match s with
  | EmptyString => EmptyString
  | String c r =>
      if Ascii.eqb c "." then EmptyString else String c (split_dot_head r)
  end.

Section WithCollation.

(** [String.prototype.localeCompare] is the engine's collation; the
    code only looks at the sign of its result. *)
Variable localeCompare : string -> string -> Z.

(** [recv.localeCompare(arg)]: only strings have the method. *)
Definition call_localeCompare (recv arg : value) : completion number :=
  match recv with
  | VString s => Normal (Fin (localeCompare s (ToString arg)))
  | _ => Throw TypeError
  end.

End WithCollation.

(** ** Array.prototype.sort

    The engine's sort is stable (ECMAScript 2019) and leaves open which
    pairs the comparator is called on and which row of a pair is passed
    first.  When the comparator is a consistent order on the rows, every
    such sort returns the same array, and the sort is embedded as a
    straight insertion sort, [sort] below; that one passes the earlier row
    first and moves it behind the later one only when the result is
    positive.  When the comparator is not consistent (it throws for some
    pairs, or answers differently for [(a, b)] and [(b, a)]) the result
    depends on the operand order: [sort_pivot_first] is the insertion sort
    with the operand order of V8, which passes the row it is placing first
    and the earlier row second, and moves the row in front of the earlier
    one when the result is negative.  On an array of two rows both agree
    with every engine of their operand order.  A NaN result counts as +0
    and an exception of the comparator aborts the sort. *)

Definition positive (v : number) : bool :=
  match v with
  | Fin n => (0 <? n)%Z
  | NaN => false
  end.

Definition negative (v : number) : bool :=
  match v with
  | Fin n => (n <? 0)%Z
  | NaN => false
  end.

Section Sort.
Variable A : Type.
Variable comparefn : A -> A -> completion number.

Fixpoint insert (x : A) (sorted : list A) : completion (list A) :=
  match sorted with
  | [] => Normal [x]
  | y :: rest =>
      bind (comparefn x y) (fun v =>
        if positive v
        then bind (insert x rest) (fun r => Normal (y :: r))
        else Normal (x :: y :: rest))
  end.

Fixpoint sort (l : list A) : completion (list A) :=
  match l with
  | [] => Normal []
  | x :: rest => bind (sort rest) (insert x)
  end.

(** The rows before the pivot are held last row first. *)
Fixpoint place (pivot : A) (before : list A) : completion (list A) :=
  match before with
  | [] => Normal [pivot]
  | y :: rest =>
      bind (comparefn pivot y) (fun v =>
        if negative v
        then bind (place pivot rest) (fun r => Normal (y :: r))
        else Normal (pivot :: y :: rest))
  end.

Fixpoint sort_backwards (rows : list A) : completion (list A) :=
  match rows with
  | [] => Normal []
  | pivot :: before => bind (sort_backwards before) (place pivot)
  end.

Definition sort_pivot_first (l : list A) : completion (list A) :=
  bind (sort_backwards (rev l)) (fun r => Normal (rev r)).
End Sort.

(** A collation for examples: code-unit order on ASCII text. *)
Definition codeUnitCompare (s t : string) : Z :=
  match String.compare s t with
  | Lt => (-1)%Z
  | Eq => 0%Z
  | Gt => 1%Z
  end.

End Js.

(** ** types/bandix.ts *)

Module Client.

Record SpeedLimit : Type := mkSpeedLimit
  { enabled : bool;
    downloadLimit : Z;
    uploadLimit : Z }.

(** ClientTraffic, as an object received from the backend: a property
    that is absent is [None] and reads as [undefined]; counters and rates
    are whole numbers. *)
Record ClientTraffic : Type := mkClient
  { ip : option string;
    mac : string;
    hostname : option string;
    download : option Z;
    upload : option Z;
    downloadSpeed : option Z;
    uploadSpeed : option Z;
    lastSeen : Z;
    speedLimit : option SpeedLimit }.

Record BandixStatus : Type := mkStatus
  { running : bool;
    interface : string;
    uptime : Z;
    version : option string }.

End Client.

Module Totals.

Record TotalTraffic : Type := mkTotal
  { download : Js.number;
    upload : Js.number;
    combined : Js.number }.

End Totals.

(** ** lib/formatters.ts and the utility functions of app.js *)

Module Formatters.

(** [if (!hostname) return 'Unknown'; return hostname.split('.')[0];] *)
Definition shortHostname (hostname : option string) : string :=
  match hostname with
  | None => "Unknown"
  | Some h => if String.eqb h "" then "Unknown" else Js.split_dot_head h
  end.

End Formatters.

(** ** Totals: refreshData and updateStats (app.js), Index.tsx, generateDemoTotal *)

Module Stats.
Import Client.
Import Totals (TotalTraffic).

(** [clients.reduce((sum, c) => sum + f(c), 0)] *)
Definition reduce_sum (f : ClientTraffic -> option Z)
           (clients : list ClientTraffic) : Js.number :=
  fold_left (fun sum c => Js.add sum (Js.ToNumber (Js.of_number (f c))))
            clients (Js.Fin 0).

(** The object assigned to [state.totalTraffic] in refreshData (app.js). *)
Definition totalTraffic (clients : list ClientTraffic) : TotalTraffic :=
  {| Totals.download := reduce_sum download clients;
     Totals.upload := reduce_sum upload clients;
     Totals.combined :=
       fold_left
         (fun sum c =>
            Js.add (Js.add sum (Js.ToNumber (Js.of_number (download c))))
                   (Js.ToNumber (Js.of_number (upload c))))
         clients (Js.Fin 0) |}.

(** generateDemoTotal (bandixApi.ts), on a given client list. *)
Definition generateDemoTotal (clients : list ClientTraffic) : TotalTraffic :=
  let download := reduce_sum download clients in
  let upload := reduce_sum upload clients in
  {| Totals.download := download;
     Totals.upload := upload;
     Totals.combined := Js.add download upload |}.

(** totalDownSpeed / totalUpSpeed in updateStats (app.js) and
    totalDownloadSpeed / totalUploadSpeed in Index.tsx. *)
Definition totalDownloadSpeed (clients : list ClientTraffic) : Js.number :=
  reduce_sum downloadSpeed clients.

Definition totalUploadSpeed (clients : list ClientTraffic) : Js.number :=
  reduce_sum uploadSpeed clients.

End Stats.

(** ** The device table: sort state and comparator (ClientsTable.tsx, app.js) *)

Module SortEngine.
Import Client.

Inductive SortField : Type :=
| f_hostname | f_ip | f_download | f_upload | f_downloadSpeed | f_uploadSpeed.

Inductive SortDirection : Type := asc | desc.

Definition SortField_eqb (f g : SortField) : bool :=
  match f, g with
  | f_hostname, f_hostname | f_ip, f_ip | f_download, f_download
  | f_upload, f_upload | f_downloadSpeed, f_downloadSpeed
  | f_uploadSpeed, f_uploadSpeed => true
  | _, _ => false
  end.

Record SortSpec : Type := mkSortSpec
  { sortField : SortField;
    sortDirection : SortDirection }.

(** useState defaults in ClientsTable.tsx; the initial [state] in app.js *)
Definition initialSort : SortSpec :=
  {| sortField := f_downloadSpeed; sortDirection := desc |}.

(** handleSort (ClientsTable.tsx) *)
Definition handleSort (s : SortSpec) (field : SortField) : SortSpec :=
  if SortField_eqb (sortField s) field then
    {| sortField := sortField s;
       sortDirection := match sortDirection s with asc => desc | desc => asc end |}
  else
    {| sortField := field; sortDirection := desc |}.

(** The click handler of a sortable column header (initEventHandlers, app.js) *)
Definition onSortableClick (s : SortSpec) (field : SortField) : SortSpec :=
  if SortField_eqb (sortField s) field then
    {| sortField := sortField s;
       sortDirection := match sortDirection s with asc => desc | desc => asc end |}
  else
    {| sortField := field; sortDirection := desc |}.

(** [a[sortField]] *)
Definition get (field : SortField) (a : ClientTraffic) : Js.value :=
  match field with
  | f_hostname => Js.of_string (hostname a)
  | f_ip => Js.of_string (ip a)
  | f_download => Js.of_number (download a)
  | f_upload => Js.of_number (upload a)
  | f_downloadSpeed => Js.of_number (downloadSpeed a)
  | f_uploadSpeed => Js.of_number (uploadSpeed a)
  end.

Section WithCollation.
Variable localeCompare : string -> string -> Z.

(** The tail shared by both comparators:
    [if (typeof aVal === 'string') return dir === 'asc' ?
       aVal.localeCompare(bVal) : bVal.localeCompare(aVal);
     return dir === 'asc' ? aVal - bVal : bVal - aVal;] *)
Definition compareValues (dir : SortDirection) (aVal bVal : Js.value)
  : Js.completion Js.number :=
  match aVal with
  | Js.VString _ =>
      match dir with
      | asc => Js.call_localeCompare localeCompare aVal bVal
      | desc => Js.call_localeCompare localeCompare bVal aVal
      end
  | _ =>
      Js.Normal
        match dir with
        | asc => Js.sub (Js.ToNumber aVal) (Js.ToNumber bVal)
        | desc => Js.sub (Js.ToNumber bVal) (Js.ToNumber aVal)
        end
  end.

(** The comparator of [sortedClients] (ClientsTable.tsx). *)
Definition compareReact (s : SortSpec) (a b : ClientTraffic)
  : Js.completion Js.number :=
  let aVal := Js.nullish_coalesce (get (sortField s) a) (Js.VString "") in
  let bVal := Js.nullish_coalesce (get (sortField s) b) (Js.VString "") in
  let aVal := if SortField_eqb (sortField s) f_hostname
              then Js.VString (Js.toLowerCase (Formatters.shortHostname (hostname a)))
              else aVal in
  let bVal := if SortField_eqb (sortField s) f_hostname
              then Js.VString (Js.toLowerCase (Formatters.shortHostname (hostname b)))
              else bVal in
  compareValues (sortDirection s) aVal bVal.

(** [shortHostname(aVal)] in app.js, where [aVal] is the hostname or
    the [''] fallback. *)
Definition shortHostnameOf (v : Js.value) : string :=
  Formatters.shortHostname
    match v with
    | Js.VString h => Some h
    | _ => None
    end.

(** The comparator of updateClientsTable (app.js). *)
Definition compareVanilla (s : SortSpec) (a b : ClientTraffic)
  : Js.completion Js.number :=
  let aVal := Js.logical_or (get (sortField s) a) (Js.VString "") in
  let bVal := Js.logical_or (get (sortField s) b) (Js.VString "") in
  let aVal := if SortField_eqb (sortField s) f_hostname
              then Js.VString (Js.toLowerCase (shortHostnameOf aVal))
              else aVal in
  let bVal := if SortField_eqb (sortField s) f_hostname
              then Js.VString (Js.toLowerCase (shortHostnameOf bVal))
              else bVal in
  compareValues (sortDirection s) aVal bVal.

(** [[...clients].sort(comparator)] in ClientsTable.tsx *)
Definition sortedClients (s : SortSpec) (clients : list ClientTraffic)
  : Js.completion (list ClientTraffic) :=
  Js.sort (compareReact s) clients.

(** [[...state.clients].sort(comparator)] in updateClientsTable (app.js) *)
Definition sortedVanilla (s : SortSpec) (clients : list ClientTraffic)
  : Js.completion (list ClientTraffic) :=
  Js.sort (compareVanilla s) clients.

End WithCollation.

End SortEngine.

(** ** The data-access client: requests and their failure modes *)

Module Api.

(** What [await fetch(url)] followed by [response.json()] can do: the
    fetch rejects, or it resolves with a status ([response.ok]) and a
    body that parses ([Some]) or does not ([None]).  A body that parses is
    taken to have the shape the caller expects (an array of devices, ...);
    JSON of another shape is not represented. *)
Inductive Response (T : Type) : Type :=
| NetworkError
| Http (ok : bool) (json : option T).
Arguments NetworkError {T}.
Arguments Http {T} ok json.

(** [const response = await fetch(url);
     if (!response.ok) throw new Error(message);
     return await response.json();] *)
Definition request {T : Type} (message : string) (r : Response T)
  : Js.completion T :=
  match r with
  | NetworkError => Js.Throw Js.TypeError
  | Http ok json =>
      if negb ok then Js.Throw (Js.Error message)
      else match json with
           | Some v => Js.Normal v
           | None => Js.Throw Js.SyntaxError
           end
  end.

(** The answers of the backend to the reads of one poll cycle. *)
Record Responses : Type := mkResponses
  { r_clients : Response (list Client.ClientTraffic);
    r_history : Response (list History.BandwidthSnapshot);
    r_stats : Response Totals.TotalTraffic;
    r_status : Response Client.BandixStatus }.

(** What the demo generators produce in one poll cycle. *)
Record Demo : Type := mkDemo
  { demoClients : list Client.ClientTraffic;
    demoHistory : list History.BandwidthSnapshot;
    demoTotal : Totals.TotalTraffic;
    demoStatus : Client.BandixStatus }.

End Api.

(** ** The standalone script (app.js) *)

Module Vanilla.
Import Client Api.

Record State : Type := mkState
  { clients : list ClientTraffic;
    history : list History.BandwidthSnapshot;
    totalTraffic : Totals.TotalTraffic;
    status : BandixStatus;
    currentInterface : string;
    sortSpec : SortEngine.SortSpec;
    isRefreshing : bool }.

Definition initialState : State :=
  {| clients := [];
     history := [];
     totalTraffic := Totals.mkTotal (Js.Fin 0) (Js.Fin 0) (Js.Fin 0);
     status := {| running := true; interface := "br-lan"; uptime := 0;
                  version := None |};
     currentInterface := "br-lan";
     sortSpec := SortEngine.initialSort;
     isRefreshing := false |}.

Definition set_isRefreshing (s : State) (b : bool) : State :=
  {| clients := clients s; history := history s;
     totalTraffic := totalTraffic s; status := status s;
     currentInterface := currentInterface s; sortSpec := sortSpec s;
     isRefreshing := b |}.

Section WithConfig.
(** CONFIG.demoMode ([false] in the source) *)
Variable demoMode : bool.

Definition fetchClients (d : Demo) (r : Responses) : list ClientTraffic :=
  if demoMode then demoClients d
  else Js.try_catch (request "Failed to fetch clients" (r_clients r)) [].

Definition fetchHistory (d : Demo) (r : Responses)
  : list History.BandwidthSnapshot :=
  if demoMode then demoHistory d
  else Js.try_catch (request "Failed to fetch history" (r_history r)) [].

Definition fetchStatus (d : Demo) (r : Responses) : BandixStatus :=
  if demoMode then demoStatus d
  else Js.try_catch (request "Failed to fetch status" (r_status r))
         {| running := false; interface := "unknown"; uptime := 0;
            version := None |}.

(** refreshData up to its [await]: the guard and the flag.  [None] is
    the early [return]. *)
Definition refreshData_enter (s : State) : option State :=
  if isRefreshing s then None else Some (set_isRefreshing s true).

(** refreshData from the [await] on: the three results are stored, the
    totals recomputed, and [finally] clears the flag.  (The four UI
    updates that follow the stores write to the page only; an
    exception in them is caught and leaves the stores in place.) *)
Definition refreshData_settle (s : State) (d : Demo) (r : Responses) : State :=
  let clients := fetchClients d r in
  let history := fetchHistory d r in
  let status := fetchStatus d r in
  {| clients := clients;
     history := history;
     totalTraffic := Stats.totalTraffic clients;
     status := status;
     currentInterface := currentInterface s;
     sortSpec := sortSpec s;
     isRefreshing := false |}.
End WithConfig.

End Vanilla.

(** ** The React page (Index.tsx over bandixApi.ts) *)

Module React.
Import Client Api.

Record State : Type := mkState
  { clients : list ClientTraffic;
    history : list History.BandwidthSnapshot;
    totalTraffic : option Totals.TotalTraffic;
    status : option BandixStatus;
    isRefreshing : bool;
    currentInterface : string }.

Definition initialState : State :=
  {| clients := []; history := []; totalTraffic := None; status := None;
     isRefreshing := false; currentInterface := "br-lan" |}.

Definition setIsRefreshing (s : State) (b : bool) : State :=
  {| clients := clients s; history := history s;
     totalTraffic := totalTraffic s; status := status s;
     isRefreshing := b; currentInterface := currentInterface s |}.

Section WithConfig.
(** DEMO_MODE ([true] in the source, "set to false when deploying") *)
Variable DEMO_MODE : bool.

Definition fetchClients (d : Demo) (r : Responses)
  : Js.completion (list ClientTraffic) :=
  if DEMO_MODE then Js.Normal (demoClients d)
  else request "Failed to fetch clients" (r_clients r).

Definition fetchHistory (d : Demo) (r : Responses)
  : Js.completion (list History.BandwidthSnapshot) :=
  if DEMO_MODE then Js.Normal (demoHistory d)
  else request "Failed to fetch history" (r_history r).

Definition fetchTotalTraffic (d : Demo) (r : Responses)
  : Js.completion Totals.TotalTraffic :=
  if DEMO_MODE then Js.Normal (demoTotal d)
  else request "Failed to fetch stats" (r_stats r).

Definition fetchStatus (d : Demo) (r : Responses)
  : Js.completion BandixStatus :=
  if DEMO_MODE then Js.Normal (demoStatus d)
  else request "Failed to fetch status" (r_status r).

(** refreshData up to its [await]: no guard, the flag is set. *)
Definition refreshData_enter (s : State) : State :=
  setIsRefreshing s true.

(** refreshData from the [await] on: [Promise.all] rejects as soon as
    one read rejects, the [catch] logs, [finally] clears the flag. *)
Definition refreshData_settle (s : State) (d : Demo) (r : Responses) : State :=
  let all :=
    Js.bind (fetchClients d r) (fun clientsData =>
    Js.bind (fetchHistory d r) (fun historyData =>
    Js.bind (fetchTotalTraffic d r) (fun trafficData =>
    Js.bind (fetchStatus d r) (fun statusData =>
    Js.Normal (clientsData, historyData, trafficData, statusData))))) in
  match all with
  | Js.Normal (clientsData, historyData, trafficData, statusData) =>
      {| clients := clientsData;
         history := historyData;
         totalTraffic := Some trafficData;
         status := Some statusData;
         isRefreshing := false;
         currentInterface := currentInterface s |}
  | Js.Throw _ => setIsRefreshing s false
  end.
End WithConfig.

End React.

(** ** The poll scheduler: triggers and settling reads *)

Module Scheduler.

(** What can happen to the page: refreshData is called (a timer tick of
    setInterval, a click on the refresh button, the initial call), or the
    reads of a started cycle settle with the given answers. *)
Inductive Event : Type :=
| Trigger
| Settle (d : Api.Demo) (r : Api.Responses).

(** The application state with the number of poll cycles that have
    passed the entry of refreshData and not yet reached its [finally]. *)
Record Sys (State : Type) : Type := mkSys
  { state : State;
    inFlight : nat }.

Section WithConfig.
Variable demoMode : bool.

Definition stepVanilla (sys : Sys Vanilla.State) (ev : Event)
  : Sys Vanilla.State :=
  match ev with
  | Trigger =>
      match Vanilla.refreshData_enter (state sys) with
      | None => sys
      | Some s => {| state := s; inFlight := S (inFlight sys) |}
      end
  | Settle d r =>
      match inFlight sys with
      | O => sys
      | S n => {| state := Vanilla.refreshData_settle demoMode (state sys) d r;
                  inFlight := n |}
      end
  end.

Definition stepReact (sys : Sys React.State) (ev : Event)
  : Sys React.State :=
  match ev with
  | Trigger =>
      {| state := React.refreshData_enter (state sys);
         inFlight := S (inFlight sys) |}
  | Settle d r =>
      match inFlight sys with
      | O => sys
      | S n => {| state := React.refreshData_settle demoMode (state sys) d r;
                  inFlight := n |}
      end
  end.

Definition runVanilla (evs : list Event) : Sys Vanilla.State :=
  fold_left stepVanilla evs
            {| state := Vanilla.initialState; inFlight := 0 |}.

Definition runReact (evs : list Event) : Sys React.State :=
  fold_left stepReact evs
            {| state := React.initialState; inFlight := 0 |}.
End WithConfig.

End Scheduler.

(** ** The canvas chart: updateChart (app.js) *)

Module Chart.
Import History.

(** [chart.canvas] *)
Record Canvas : Type := mkCanvas
  { width : Z;
    height : Z }.

(** The calls made on the 2D context, in order. *)
Inductive DrawOp : Type :=
| clearRect (x y w h : Q)
| beginPath
| moveTo (x y : Q)
| lineTo (x y : Q)
| closePath
| createLinearGradient (x0 y0 x1 y1 : Q)
| addColorStop (offset : Q) (color : string)
| fillStyle_gradient
| fill
| strokeStyle (color : string)
| lineWidth (w : Q)
| stroke.

Record Padding : Type := mkPadding
  { top : Q; right : Q; bottom : Q; left : Q }.

Definition padding : Padding :=
  {| top := 10; right := 10; bottom := 10; left := 10 |}.

(** [state.history.flatMap(p => [p.download, p.upload])] *)
Definition allValues (history : list BandwidthSnapshot) : list Q :=
  flat_map (fun p => [download p; upload p]) history.

(** [Math.max(...allValues, 1)] *)
Definition maxValue (history : list BandwidthSnapshot) : Q :=
  fold_left Qmax (allValues history) 1.

(** [points - 1 || 1] *)
Definition stepDivisor (points : nat) : Z :=
  let d := (Z.of_nat points - 1)%Z in
  if (d =? 0)%Z then 1%Z else d.

(** [chartWidth / (points - 1 || 1)], as an exact quotient; the code's is
    rounded to a double. *)
Definition stepX (chartWidth : Q) (points : nat) : Q :=
  chartWidth / inject_Z (stepDivisor points).

(** [data.forEach((point, i) => f(point, i))], collecting the calls *)
Fixpoint forEach_i (A B : Type) (f : A -> nat -> list B) (data : list A)
         (i : nat) : list B :=
  match data with
  | [] => []
  | point :: rest => f point i ++ forEach_i f rest (S i)
  end.

Section Frame.
Variable c : Canvas.
Variable history : list BandwidthSnapshot.

Definition chartWidth : Q := inject_Z (width c) - left padding - right padding.
Definition chartHeight : Q := inject_Z (height c) - top padding - bottom padding.

Definition pointX (i : nat) : Q :=
  left padding + inject_Z (Z.of_nat i) * stepX chartWidth (length history).

Definition pointY (point : Q) : Q :=
  inject_Z (height c) - bottom padding
  - (point / maxValue history) * chartHeight.

Definition drawArea (data : list Q) (color fillColor : string) : list DrawOp :=
  [beginPath; moveTo (left padding) (inject_Z (height c) - bottom padding)]
  ++ forEach_i (fun point i => [lineTo (pointX i) (pointY point)]) data 0
  ++ [lineTo (left padding
              + (inject_Z (Z.of_nat (length data)) - 1)
                * stepX chartWidth (length history))
             (inject_Z (height c) - bottom padding);
      closePath;
      createLinearGradient 0 (top padding) 0 (inject_Z (height c) - bottom padding);
      addColorStop 0 fillColor;
      addColorStop 1 "rgba(0,0,0,0)";
      fillStyle_gradient;
      fill;
      beginPath]
  ++ forEach_i (fun point i =>
                  if (i =? 0)%nat then [moveTo (pointX i) (pointY point)]
                  else [lineTo (pointX i) (pointY point)]) data 0
  ++ [strokeStyle color; lineWidth 2; stroke].
End Frame.

(** updateChart: [chart] is [None] before initChart has run. *)
Definition updateChart (chart : option Canvas)
           (history : list BandwidthSnapshot) : list DrawOp :=
  match chart with
  | None => []
  | Some c =>
      if (length history =? 0)%nat then []
      else
        [clearRect 0 0 (inject_Z (width c)) (inject_Z (height c))]
        ++ drawArea c history (map download history)
                    "#22c55e" "rgba(34, 197, 94, 0.3)"
        ++ drawArea c history (map upload history)
                    "#c084fc" "rgba(192, 132, 252, 0.3)"
  end.

End Chart.

(** ** formatDuration (app.js, lib/formatters.ts), on whole seconds *)

Module Formatting.

(** [Math.floor(seconds / 86400)] *)
Definition days (seconds : Z) : Z := (seconds / 86400)%Z.

(** [Math.floor((seconds % 86400) / 3600)]; [%] takes the sign of the
    dividend. *)
Definition hours (seconds : Z) : Z := (Z.rem seconds 86400 / 3600)%Z.

(** [Math.floor((seconds % 3600) / 60)] *)
Definition minutes (seconds : Z) : Z := (Z.rem seconds 3600 / 60)%Z.

(** [n + unit] *)
Definition suffixed (n : Z) (unit : string) : string :=
  String.append (Js.ToString (Js.VNumber (Js.Fin n))) unit.

(** The array [parts] after the three conditional pushes. *)
Definition parts (seconds : Z) : list string :=
  (if (0 <? days seconds)%Z then [suffixed (days seconds) "d"] else [])
  ++ (if (0 <? hours seconds)%Z then [suffixed (hours seconds) "h"] else [])
  ++ (if (0 <? minutes seconds)%Z then [suffixed (minutes seconds) "m"] else []).

(** Array.prototype.join *)
Fixpoint join (sep : string) (l : list string) : string :=
  match l with
  | [] => EmptyString
  | x :: rest =>
      match rest with
      | [] => x
      | _ :: _ => String.append x (String.append sep (join sep rest))
      end
  end.

Definition formatDuration (seconds : Z) : string :=
  match parts seconds with
  | [] => "< 1m"
  | _ :: _ => join " " (parts seconds)
  end.

End Formatting.

(** ** The demo generators of app.js: generateDemoClients and the demo
    branch of fetchStatus *)

Module DemoData.
Import Client.

Definition device (ip mac hostname : string)
           (download upload downloadSpeed uploadSpeed : Z)
           (now : Z) (limit : option SpeedLimit) : ClientTraffic :=
  {| Client.ip := Some ip; Client.mac := mac; Client.hostname := Some hostname;
     Client.download := Some download; Client.upload := Some upload;
     Client.downloadSpeed := Some downloadSpeed;
     Client.uploadSpeed := Some uploadSpeed;
     lastSeen := now; speedLimit := limit |}.

(** The literal array [clients]; [now] is [Date.now()] (its eight
    readings, one per object, are taken as one). *)
Definition baseClients (now : Z) : list ClientTraffic :=
  [ device "192.168.1.100" "AA:BB:CC:DD:EE:01" "iPhone-John"
           1524288000 256789000 2500000 450000 now None;
    device "192.168.1.101" "AA:BB:CC:DD:EE:02" "MacBook-Pro"
           8945678000 1234567000 15000000 2000000 now None;
    device "192.168.1.102" "AA:BB:CC:DD:EE:03" "Samsung-TV"
           45678900000 12345000 25000000 100000 now None;
    device "192.168.1.103" "AA:BB:CC:DD:EE:04" "Gaming-PC"
           125678900000 34567890000 45000000 8000000 now
           (Some {| enabled := true; downloadLimit := 50000; uploadLimit := 10000 |});
    device "192.168.1.104" "AA:BB:CC:DD:EE:05" "iPad-Kids"
           5678900000 234567000 5000000 500000 now None;
    device "192.168.1.105" "AA:BB:CC:DD:EE:06" "Smart-Speaker"
           123456000 12345000 128000 64000 now None;
    device "192.168.1.106" "AA:BB:CC:DD:EE:07" "Work-Laptop"
           23456789000 8765432000 8000000 3000000 now None;
    device "192.168.1.107" "AA:BB:CC:DD:EE:08" "Security-Cam"
           567890000 4567890000 200000 2000000 now None ].

(** [Math.floor(speed * (0.8 + Math.random() * 0.4))] for the draw [r] *)
Definition jitter (speed : Z) (r : Q) : Z :=
  Qfloor (inject_Z speed * ((8 # 10) + r * (4 # 10))).

(** [clients.map(client => ({...client, downloadSpeed: ..., uploadSpeed: ...}))];
    [k] is the index of the next draw. *)
Fixpoint jitterAll (clients : list ClientTraffic) (random : nat -> Q) (k : nat)
  : list ClientTraffic :=
  match clients with
  | [] => []
  | client :: rest =>
      {| ip := ip client; mac := mac client; hostname := hostname client;
         download := download client; upload := upload client;
         downloadSpeed :=
           option_map (fun v => jitter v (random k)) (downloadSpeed client);
         uploadSpeed :=
           option_map (fun v => jitter v (random (S k))) (uploadSpeed client);
         lastSeen := lastSeen client; speedLimit := speedLimit client |}
      :: jitterAll rest random (k + 2)
  end.

Definition generateDemoClients (now : Z) (random : nat -> Q) : list ClientTraffic :=
  jitterAll (baseClients now) random 0.

(** The object returned by the demo branch of fetchStatus (app.js) for the
    draw [r]. *)
Definition demoStatus (currentInterface : string) (r : Q) : BandixStatus :=
  {| running := true;
     interface := currentInterface;
     uptime := 86400 + Qfloor (r * 3600);
     version := Some "2.1.0"%string |}.

End DemoData.

(** ** The legend of the chart: updateStats (app.js), BandwidthChart.tsx *)

Module Legend.
Import History.

(** [history.length > 0 ? history[history.length - 1].download : 0] *)
Definition currentDown (history : list BandwidthSnapshot) : Q :=
  if (0 <? length history)%nat then
    match nth_error history (length history - 1) with
    | Some p => download p
    | None => 0
    end
  else 0.

Definition currentUp (history : list BandwidthSnapshot) : Q :=
  if (0 <? length history)%nat then
    match nth_error history (length history - 1) with
    | Some p => upload p
    | None => 0
    end
  else 0.

End Legend.

(** ** Limits in the standalone script: setSpeedLimit and the limit button
    of the table *)

Module Writes.
Import Client.

(** What a POST can do: the fetch rejects, or it resolves with a status. *)
Inductive WriteResponse : Type :=
| WriteRejected
| WriteStatus (ok : bool).

Definition succeeded (r : WriteResponse) : bool :=
  match r with
  | WriteStatus true => true
  | _ => false
  end.

(** [{ ...c, speedLimit: limit }] *)
Definition withLimit (c : ClientTraffic) (limit : option SpeedLimit) : ClientTraffic :=
  {| ip := ip c; mac := mac c; hostname := hostname c;
     download := download c; upload := upload c;
     downloadSpeed := downloadSpeed c; uploadSpeed := uploadSpeed c;
     lastSeen := lastSeen c; speedLimit := limit |}.

Definition set_clients (s : Vanilla.State) (l : list ClientTraffic) : Vanilla.State :=
  {| Vanilla.clients := l; Vanilla.history := Vanilla.history s;
     Vanilla.totalTraffic := Vanilla.totalTraffic s;
     Vanilla.status := Vanilla.status s;
     Vanilla.currentInterface := Vanilla.currentInterface s;
     Vanilla.sortSpec := Vanilla.sortSpec s;
     Vanilla.isRefreshing := Vanilla.isRefreshing s |}.

(** setSpeedLimit (app.js): the new state, and whether the failure alert
    was raised. *)
Definition setSpeedLimit (demoMode : bool) (s : Vanilla.State) (mac : string)
           (limit : option SpeedLimit) (r : WriteResponse) : Vanilla.State * bool :=
  if demoMode then
    (set_clients s
       (map (fun c => if String.eqb (Client.mac c) mac then withLimit c limit else c)
            (Vanilla.clients s)),
     false)
  else
    (s, negb (succeeded r)).

(** [client?.speedLimit?.enabled], as a condition *)
Definition limitEnabled (client : option ClientTraffic) : bool :=
  match client with
  | Some c =>
      match speedLimit c with
      | Some l => enabled l
      | None => false
      end
  | None => false
  end.

(** What a click on a limit button does. *)
Inductive ButtonAction : Type :=
| RemoveLimit (mac : string)
| OpenLimitModal (mac hostname : string).

(** The click handler installed by updateClientsTable. *)
Definition onLimitButton (s : Vanilla.State) (mac hostname : string) : ButtonAction :=
  let client := find (fun c => String.eqb (Client.mac c) mac) (Vanilla.clients s) in
  if limitEnabled client then RemoveLimit mac else OpenLimitModal mac hostname.

End Writes.

(** ** The limit editor of the React table: SpeedLimitModal.tsx and the
    limit cell of ClientsTable.tsx *)

Module LimitEditor.
Import Client.

(** PRESET_LIMITS: download and upload of each preset *)
Definition PRESET_LIMITS : list (string * Z * Z) :=
  [ ("1 Mbps"%string, 1000, 500)%Z;
    ("5 Mbps"%string, 5000, 2500)%Z;
    ("10 Mbps"%string, 10000, 5000)%Z;
    ("25 Mbps"%string, 25000, 10000)%Z;
    ("50 Mbps"%string, 50000, 20000)%Z ].

(** The two [useState] cells of the modal. *)
Record Draft : Type := mkDraft
  { downloadLimit : Z;
    uploadLimit : Z }.

Definition initialDraft : Draft := {| downloadLimit := 10000; uploadLimit := 5000 |}.

(** The table with its editor: closed, or open on a device. *)
Record Table : Type := mkTable
  { selectedClient : option ClientTraffic;
    draft : Draft }.

Definition closed : Table := {| selectedClient := None; draft := initialDraft |}.

(** [onSetLimit(mac, limit)] *)
Inductive Request : Type :=
| SetLimit (mac : string) (limit : option SpeedLimit).

(** What the user can do. *)
Inductive Event : Type :=
| ClickLimitCell (client : ClientTraffic)
| ClickPreset (i : nat)
| SlideDownload (value : Z)
| SlideUpload (value : Z)
| ClickApply
| ClickClose.

Definition handlePreset (d : Draft) (download upload : Z) : Draft :=
  {| downloadLimit := download; uploadLimit := upload |}.

Definition handleApply (d : Draft) : SpeedLimit :=
  {| enabled := true;
     Client.downloadLimit := downloadLimit d;
     Client.uploadLimit := uploadLimit d |}.

(** One event: the new table and the requests sent.  The modal exists
    only while a device is selected; it is mounted, with the initial
    draft, when a device becomes selected and unmounted when none is. *)
Definition step (t : Table) (ev : Event) : Table * list Request :=
  match ev with
  | ClickLimitCell client =>
      if Writes.limitEnabled (Some client)
      then (t, [SetLimit (mac client) None])
      else ({| selectedClient := Some client;
               draft := match selectedClient t with
                        | None => initialDraft
                        | Some _ => draft t
                        end |}, [])
  | ClickPreset i =>
      match selectedClient t, nth_error PRESET_LIMITS i with
      | Some _, Some (_, download, upload) =>
          ({| selectedClient := selectedClient t;
              draft := handlePreset (draft t) download upload |}, [])
      | _, _ => (t, [])
      end
  | SlideDownload value =>
      match selectedClient t with
      | Some _ => ({| selectedClient := selectedClient t;
                      draft := {| downloadLimit := value;
                                  uploadLimit := uploadLimit (draft t) |} |}, [])
      | None => (t, [])
      end
  | SlideUpload value =>
      match selectedClient t with
      | Some _ => ({| selectedClient := selectedClient t;
                      draft := {| downloadLimit := downloadLimit (draft t);
                                  uploadLimit := value |} |}, [])
      | None => (t, [])
      end
  | ClickApply =>
      match selectedClient t with
      | Some client =>
          (closed, [SetLimit (mac client) (Some (handleApply (draft t)))])
      | None => (t, [])
      end
  | ClickClose =>
      match selectedClient t with
      | Some _ => (closed, [])
      | None => (t, [])
      end
  end.

(** A run of events: the final table and every request sent, in order. *)
Fixpoint run (t : Table) (evs : list Event) : Table * list Request :=
  match evs with
  | [] => (t, [])
  | ev :: rest =>
      let (t1, sent) := step t ev in
      let (t2, later) := run t1 rest in
      (t2, sent ++ later)
  end.

End LimitEditor.

(* ================================================================== *)
(** * Part II: the vocabulary of the properties                        *)
(* ================================================================== *)

Section HistoryWindowTerms.
Import History.

Definition lastn (A : Type) (n : nat) (l : list A) : list A :=
  skipn (length l - n) l.

(** The array is the window of the last [historyLength] pushes. *)
Definition window (b : Buffer) : Prop :=
  items b = lastn historyLength (appended b).

(** The log is in time order and nothing in it is later than [t]. *)
Definition chronological (t : Z) (b : Buffer) : Prop :=
  StronglySorted Z.le (map timestamp (appended b)) /\
  Forall (fun p => (timestamp p <= t)%Z) (appended b).

(** What a first call is to push: one snapshot per second over the last
    minute, the last one at the clock reading, each built from the next
    two draws. *)
Definition firstCallPoints (e : Env) : list BandwidthSnapshot :=
  map (fun j => demoPoint (now e - Z.of_nat (59 - j) * 1000) e (2 * j))
      (seq 0 60).

(** What a sequence of calls is to push, told from the calls alone: the
    backfill of the first call, then one snapshot per further call, at the
    clock reading of that call and built from its first two draws. *)
Definition pushed (es : list Env) : list BandwidthSnapshot :=
  match es with
  | [] => []
  | e :: rest =>
      firstCallPoints e ++ map (fun e' => demoPoint (now e') e' 0) rest
  end.

(** Two calls one second apart. *)
Definition env0 : Env := {| now := 1000; random := fun _ => 1 # 2 |}.

Definition env1 : Env := {| now := 2000; random := fun _ => 1 # 4 |}.

End HistoryWindowTerms.

Section StatAggregationTerms.
Import Client.

(** The sum of a counter over the list, for lists where it is present. *)
Definition sum_of (f : ClientTraffic -> option Z) (clients : list ClientTraffic) : Z :=
  fold_right (fun c acc => (match f c with Some n => n | None => 0 end + acc)%Z)
             0%Z clients.

Definition present (f : ClientTraffic -> option Z) (c : ClientTraffic) : Prop :=
  f c <> None.

(** The list of the specification's example: two devices of which only
    the byte counters are given. *)
Definition counters_only (d u : Z) : ClientTraffic :=
  {| ip := None; mac := ""; hostname := None;
     download := Some d; upload := Some u;
     downloadSpeed := None; uploadSpeed := None;
     lastSeen := 0; speedLimit := None |}.

Definition example_clients : list ClientTraffic :=
  [counters_only 100 50; counters_only 200 25].

Definition not_negative (o : option Z) : Prop :=
  match o with
  | Some n => (0 <= n)%Z
  | None => True
  end.

(** Lists on which the additions of the code are exact in doubles, in
    whatever order they are made: no counter or rate is negative and no
    total exceeds 2^53. *)
Definition exact_in_doubles (clients : list ClientTraffic) : Prop :=
  Forall (fun c => not_negative (download c) /\ not_negative (upload c)
                   /\ not_negative (downloadSpeed c)
                   /\ not_negative (uploadSpeed c)) clients
  /\ (sum_of download clients + sum_of upload clients <= 2 ^ 53)%Z
  /\ (sum_of downloadSpeed clients <= 2 ^ 53)%Z
  /\ (sum_of uploadSpeed clients <= 2 ^ 53)%Z.

End StatAggregationTerms.

Section SortStateTerms.
Import SortEngine.

Definition flip (d : SortDirection) : SortDirection :=
  match d with asc => desc | desc => asc end.

End SortStateTerms.

Section ChartScaleTerms.
Import History Chart.

Definition flat_snapshot : BandwidthSnapshot :=
  {| timestamp := 0; download := 0; upload := 0 |}.

(** The horizontal position of a path call, when it has one. *)
Definition on_left_edge (op : DrawOp) : Prop :=
  match op with
  | moveTo x _ | lineTo x _ => x == left padding
  | _ => True
  end.

End ChartScaleTerms.

Section ReentrancyTerms.
Import Scheduler.

(** In the standalone script the flag counts the cycles in flight. *)
Definition flag_counts (sys : Sys Vanilla.State) : Prop :=
  inFlight sys = if Vanilla.isRefreshing (state sys) then 1%nat else 0%nat.

End ReentrancyTerms.

Section ReadFailuresTerms.
Import Client Api.

(** The payload of a read that succeeded. *)
Definition payload (T : Type) (r : Response T) : option T :=
  match r with
  | Http true (Some v) => Some v
  | _ => None
  end.

Definition or_default (T : Type) (o : option T) (d : T) : T :=
  match o with
  | Some v => v
  | None => d
  end.

Definition status_fallback : BandixStatus :=
  {| running := false; interface := "unknown"; uptime := 0; version := None |}.

Definition one_snapshot : History.BandwidthSnapshot :=
  {| History.timestamp := 1000; History.download := 5; History.upload := 3 |}.

Definition running_status : BandixStatus :=
  {| running := true; interface := "br-lan"; uptime := 60; version := None |}.

Definition no_demo : Demo :=
  {| demoClients := []; demoHistory := [];
     demoTotal := Totals.mkTotal (Js.Fin 0) (Js.Fin 0) (Js.Fin 0);
     demoStatus := running_status |}.

(** The device list cannot be read; the three other reads succeed. *)
Definition clients_down : Responses :=
  {| r_clients := NetworkError;
     r_history := Http true (Some [one_snapshot]);
     r_stats := Http true (Some (Totals.mkTotal (Js.Fin 7) (Js.Fin 2) (Js.Fin 9)));
     r_status := Http true (Some running_status) |}.

End ReadFailuresTerms.

Section SortFactsTerms.
Variable A : Type.
Variable comparefn : A -> A -> Js.completion Js.number.

(** [a] stands somewhere before [b] in the list. *)
Definition Before (a b : A) (l : list A) : Prop :=
  exists l1 l2 l3, l = l1 ++ a :: l2 ++ b :: l3.

(** The comparator does not ask for [a] to be moved behind [b]. *)
Definition keeps_before (a b : A) : Prop :=
  exists v, comparefn a b = Js.Normal v /\ Js.positive v = false.

End SortFactsTerms.

Section DeviceTableTerms.
Import Client SortEngine.
Variable localeCompare : string -> string -> Z.

(** The order key of the display name. *)
Definition orderKey (hostname : option string) : string :=
  Js.toLowerCase (Formatters.shortHostname hostname).

(** The sign convention of a direction. *)
Definition directed (dir : SortDirection) (x y : string) : Z :=
  match dir with
  | asc => localeCompare x y
  | desc => localeCompare y x
  end.

(** A device that carries its four numeric fields, as ClientTraffic
    requires. *)
Definition typed (c : ClientTraffic) : Prop :=
  download c <> None /\ upload c <> None
  /\ downloadSpeed c <> None /\ uploadSpeed c <> None.

(** A device whose four numeric fields are present and not zero. *)
Definition nonzero (c : ClientTraffic) : Prop :=
  (exists n, download c = Some n /\ n <> 0%Z)
  /\ (exists n, upload c = Some n /\ n <> 0%Z)
  /\ (exists n, downloadSpeed c = Some n /\ n <> 0%Z)
  /\ (exists n, uploadSpeed c = Some n /\ n <> 0%Z).

(** The two devices of the specification's example: names "b" and "a",
    the same value 1 in the sorted field. *)
Definition named (h : string) (v : Z) : ClientTraffic :=
  {| ip := Some "192.168.1.2"%string; mac := h; hostname := Some h;
     download := Some v; upload := Some v;
     downloadSpeed := Some v; uploadSpeed := Some v;
     lastSeen := 0; speedLimit := None |}.

End DeviceTableTerms.

Section NameKeyTerms.
Import Client SortEngine.

(** Blank, tab, line feed, carriage return. *)
Definition is_space (c : ascii) : bool :=
  Ascii.eqb c " " || Ascii.eqb c "009" || Ascii.eqb c "010" || Ascii.eqb c "013".

Fixpoint ltrim (s : string) : string :=
  match s with
  | EmptyString => EmptyString
  | String c r => if is_space c then ltrim r else s
  end.

Fixpoint rtrim (s : string) : string :=
  match s with
  | EmptyString => EmptyString
  | String c r =>
      let r' := rtrim r in
      if is_space c && String.eqb r' "" then EmptyString else String c r'
  end.

Definition trim (s : string) : string := rtrim (ltrim s).

(** The normal form the specification describes: trimmed, then cut at the
    domain suffix, then case-folded. *)
Definition normalizedKey (h : string) : string :=
  Js.toLowerCase (Js.split_dot_head (trim h)).

End NameKeyTerms.

Section MissingValuesTerms.
Import Client SortEngine.

(** A device without a display name. *)
Definition unnamed (c : ClientTraffic) : Prop :=
  hostname c = None \/ hostname c = Some ""%string.

Definition anonymous (v : Z) : ClientTraffic :=
  {| ip := Some "192.168.1.9"%string; mac := "AA:BB:CC:DD:EE:09";
     hostname := None;
     download := Some v; upload := Some v;
     downloadSpeed := Some v; uploadSpeed := Some v;
     lastSeen := 0; speedLimit := None |}.

(** A device without a download rate. *)
Definition rateless (h : string) : ClientTraffic :=
  {| ip := Some "192.168.1.8"%string; mac := h; hostname := Some h;
     download := Some 1%Z; upload := Some 1%Z;
     downloadSpeed := None; uploadSpeed := Some 1%Z;
     lastSeen := 0; speedLimit := None |}.

End MissingValuesTerms.

Section FormattingTerms.

(** The string contains a dot. *)
Fixpoint has_dot (s : string) : bool :=
  match s with
  | EmptyString => false
  | String c r => Ascii.eqb c "." || has_dot r
  end.

(** The first character of a string, if any. *)
Definition first_char (s : string) : option ascii :=
  match s with
  | EmptyString => None
  | String c _ => Some c
  end.

Definition is_digit (c : ascii) : bool :=
  let n := nat_of_ascii c in ((48 <=? n) && (n <=? 57))%nat.

End FormattingTerms.

Section SortOrderTerms.
Import Client SortEngine.

Definition isNumeric (f : SortField) : bool :=
  match f with
  | f_hostname | f_ip => false
  | _ => true
  end.

(** The number a device carries in a field (0 when it carries none). *)
Definition fieldValue (f : SortField) (c : ClientTraffic) : Z :=
  match get f c with
  | Js.VNumber (Js.Fin n) => n
  | _ => 0%Z
  end.

(** Two values stand in the order a direction asks for. *)
Definition inOrder (dir : SortDirection) (x y : Z) : Prop :=
  match dir with
  | asc => (x <= y)%Z
  | desc => (y <= x)%Z
  end.

(** The two devices of the specification's end-to-end example. *)
Definition deviceA : ClientTraffic :=
  {| ip := Some "192.168.1.10"%string; mac := "A"; hostname := Some "a"%string;
     download := Some 10%Z; upload := Some 20%Z;
     downloadSpeed := Some 1000%Z; uploadSpeed := Some 200%Z;
     lastSeen := 0; speedLimit := None |}.

Definition deviceB : ClientTraffic :=
  {| ip := Some "192.168.1.11"%string; mac := "B"; hostname := Some "b"%string;
     download := Some 30%Z; upload := Some 40%Z;
     downloadSpeed := Some 500%Z; uploadSpeed := Some 900%Z;
     lastSeen := 0; speedLimit := None |}.

End SortOrderTerms.

Section ChartGeometryTerms.
Import History Chart.

(** A path point lies between the top padding line and the baseline, and
    not to the left of the left padding line. *)
Definition within_plot_lines (c : Canvas) (op : DrawOp) : Prop :=
  match op with
  | moveTo x y | lineTo x y =>
      left padding <= x
      /\ top padding <= y /\ y <= inject_Z (height c) - bottom padding
  | _ => True
  end.

Definition sample (ts : Z) (d u : Q) : BandwidthSnapshot :=
  {| timestamp := ts; download := d; upload := u |}.

Definition small_canvas : Canvas := {| width := 320; height := 120 |}.

Definition three_samples : list BandwidthSnapshot :=
  [sample 0 4 1; sample 1000 8 2; sample 2000 6 3].

End ChartGeometryTerms.

Section DemoHistoryTerms.
Import History.

(** The timestamps of the first call: one per second over the last minute,
    ending at the clock reading. *)
Definition backfill (now : Z) : list Z :=
  map (fun j => (now - Z.of_nat (59 - j) * 1000)%Z) (seq 0 60).

(** Every draw of a call lies in the range of [Math.random()]. *)
Definition in_unit_interval (e : Env) : Prop :=
  forall k, 0 <= random e k /\ random e k < 1.

(** The ranges of the two rates of a generated snapshot. *)
Definition demo_range (p : BandwidthSnapshot) : Prop :=
  20000000 <= download p /\ download p < 60000000
  /\ 5000000 <= upload p /\ upload p < 15000000.

End DemoHistoryTerms.

Section DemoDataTerms.
Import Client.

(** A generated speed against its base value: within a fifth of it, up to
    the rounding down. *)
Definition within_a_fifth (base speed : option Z) : Prop :=
  match base, speed with
  | Some b, Some v => (8 * b - 10 < 10 * v /\ 10 * v <= 12 * b)%Z
  | _, _ => False
  end.

(** A generated device against its base device: only the two speeds
    differ. *)
Definition jittered (b c : ClientTraffic) : Prop :=
  ip c = ip b /\ mac c = mac b /\ hostname c = hostname b
  /\ download c = download b /\ upload c = upload b
  /\ lastSeen c = lastSeen b /\ speedLimit c = speedLimit b
  /\ within_a_fifth (downloadSpeed b) (downloadSpeed c)
  /\ within_a_fifth (uploadSpeed b) (uploadSpeed c).

(** A base device: both speeds present and not negative. *)
Definition has_speeds (b : ClientTraffic) : Prop :=
  (exists v, downloadSpeed b = Some v /\ (0 <= v)%Z)
  /\ (exists v, uploadSpeed b = Some v /\ (0 <= v)%Z).

(** Every draw lies in the range of [Math.random()]. *)
Definition unit_draws (random : nat -> Q) : Prop :=
  forall k, 0 <= random k /\ random k < 1.

End DemoDataTerms.

Section LimitTerms.
Import Client.

(** What the two range inputs of the modal can hold: between their [min]
    and [max], on their [step]. *)
Definition download_in_range (v : Z) : Prop :=
  (100 <= v <= 100000)%Z /\ (v mod 100 = 0)%Z.

Definition upload_in_range (v : Z) : Prop :=
  (100 <= v <= 50000)%Z /\ (v mod 100 = 0)%Z.

(** An event the page can deliver: a preset button that exists, a slider
    value its range input allows. *)
Definition valid_event (ev : LimitEditor.Event) : Prop :=
  match ev with
  | LimitEditor.ClickPreset i => (i < length LimitEditor.PRESET_LIMITS)%nat
  | LimitEditor.SlideDownload v => download_in_range v
  | LimitEditor.SlideUpload v => upload_in_range v
  | _ => True
  end.

(** A request is a removal, or an enabled limit within the slider ranges. *)
Definition well_formed (r : LimitEditor.Request) : Prop :=
  match r with
  | LimitEditor.SetLimit _ None => True
  | LimitEditor.SetLimit _ (Some l) =>
      enabled l = true
      /\ download_in_range (downloadLimit l)
      /\ upload_in_range (uploadLimit l)
  end.

Definition draft_in_range (d : LimitEditor.Draft) : Prop :=
  download_in_range (LimitEditor.downloadLimit d)
  /\ upload_in_range (LimitEditor.uploadLimit d).

(** A state of the script holding the two devices of the example. *)
Definition two_devices : Vanilla.State :=
  Writes.set_clients Vanilla.initialState [deviceA; deviceB].

Definition some_limit : SpeedLimit :=
  {| enabled := true; downloadLimit := 10000; uploadLimit := 5000 |}.

End LimitTerms.

Section CollationTerms.
Import Client SortEngine.

(** A collation that orders all strings: of two strings one comes no later
    than the other, and "no later than" is transitive. *)
Definition total_preorder (localeCompare : string -> string -> Z) : Prop :=
  (forall x y, (0 < localeCompare x y)%Z -> (localeCompare y x <= 0)%Z)
  /\ (forall x y z, (localeCompare x y <= 0)%Z -> (localeCompare y z <= 0)%Z ->
                    (localeCompare x z <= 0)%Z).

(** The string a device is compared by under a text field. *)
Definition textKey (f : SortField) (c : ClientTraffic) : string :=
  match f with
  | f_hostname => orderKey (hostname c)
  | _ => match ip c with
         | Some s => s
         | None => EmptyString
         end
  end.

(** The number either comparator returns on devices that carry their
    fields. *)
Definition comparisonValue (localeCompare : string -> string -> Z)
           (f : SortField) (dir : SortDirection) (a b : ClientTraffic) : Z :=
  if isNumeric f then
    match dir with
    | asc => (fieldValue f a - fieldValue f b)%Z
    | desc => (fieldValue f b - fieldValue f a)%Z
    end
  else directed localeCompare dir (textKey f a) (textKey f b).

End CollationTerms.

Section OperandOrderTerms.
Variable A : Type.
Variable c : A -> A -> Z.

(** A comparison that orders the rows consistently: swapping the operands
    swaps the sign, and "no later than" is transitive. *)
Definition consistent : Prop :=
  (forall x y, (c x y < 0)%Z <-> (0 < c y x)%Z)
  /\ (forall x y z, (c x y <= 0)%Z -> (c y z <= 0)%Z -> (c x z <= 0)%Z).

(** Where a row goes that stood in front of the rows of a sorted list:
    before the first row that is not smaller than it. *)
Fixpoint placeEarlier (x : A) (sorted : list A) : list A :=
  match sorted with
  | [] => [x]
  | y :: rest =>
      if (0 <? c x y)%Z then y :: placeEarlier x rest else x :: y :: rest
  end.

(** Where a row goes that stood behind the rows of a sorted list: before
    the first row that is greater than it. *)
Fixpoint placeLater (z : A) (sorted : list A) : list A :=
  match sorted with
  | [] => [z]
  | y :: rest =>
      if (c z y <? 0)%Z then z :: y :: rest else y :: placeLater z rest
  end.

End OperandOrderTerms.

(* ================================================================== *)
(** * Part III: properties                                             *)
(* ================================================================== *)

(** ** History window *)

Section HistoryWindow.
Import History.

Lemma lastn_short (A : Type) (n : nat) (l : list A) :
  (length l <= n)%nat -> lastn n l = l.
Proof.
  intros H. unfold lastn. replace (length l - n)%nat with 0%nat by lia.
  reflexivity.
Qed.

Lemma lastn_snoc_full (A : Type) (n : nat) (l : list A) (x : A) :
  (n <= length l)%nat -> (0 < n)%nat ->
  lastn n (l ++ [x]) = tl (lastn n l) ++ [x].
Proof.
  intros Hn Hpos. unfold lastn.
  rewrite length_app. simpl.
  replace (length l + 1 - n)%nat with (S (length l - n)) by lia.
  rewrite skipn_app.
  replace (S (length l - n) - length l)%nat with 0%nat by lia.
  simpl (skipn 0 [x]).
  f_equal.
  generalize (length l - n)%nat as m. clear.
  intros m. revert l.
  induction m as [|m IH]; intros [|a l]; simpl; auto.
  apply IH.
Qed.

Lemma length_lastn (A : Type) (n : nat) (l : list A) :
  length (lastn n l) = Nat.min n (length l).
Proof. unfold lastn. rewrite length_skipn. lia. Qed.

(** The loop pushes exactly [n] snapshots, onto the array and the log alike. *)
Lemma initLoop_pushes (e : Env) (n : nat) :
  forall k b, exists pts,
    length pts = n /\
    items (initLoop e n k b) = items b ++ pts /\
    appended (initLoop e n k b) = appended b ++ pts /\
    StronglySorted Z.le (map timestamp pts) /\
    Forall (fun p => (now e - Z.of_nat (n - 1) * 1000 <= timestamp p <= now e)%Z) pts.
Proof.
  induction n as [|i IH]; intros k b.
  - exists []. simpl. rewrite !app_nil_r. repeat split; constructor.
  - simpl initLoop.
    destruct (IH (k + 2)%nat (push b (demoPoint (now e - Z.of_nat i * 1000) e k)))
      as (pts & Hlen & Hit & Hap & Hs & Hb).
    exists (demoPoint (now e - Z.of_nat i * 1000) e k :: pts).
    simpl length. split; [lia|].
    rewrite Hit, Hap. simpl items. simpl appended. rewrite <- !app_assoc. simpl.
    repeat split; auto.
    + constructor; auto.
      rewrite Forall_map. eapply Forall_impl; [|exact Hb].
      simpl. intros p Hp.
      destruct i; simpl in Hp; lia.
    + constructor.
      * simpl. replace (i - 0)%nat with i by lia. lia.
      * eapply Forall_impl; [|exact Hb]. simpl. intros p Hp.
        replace (i - 0)%nat with i by lia. lia.
Qed.

Lemma StronglySorted_snoc (l : list Z) (x : Z) :
  StronglySorted Z.le l -> Forall (fun y => (y <= x)%Z) l ->
  StronglySorted Z.le (l ++ [x]).
Proof.
  induction 1 as [|a l Hs IH Ha]; intros Hx; simpl.
  - repeat constructor.
  - inversion Hx; subst. constructor; auto.
    apply Forall_app. split; auto.
Qed.

Lemma StronglySorted_skipn (l : list Z) (n : nat) :
  StronglySorted Z.le l -> StronglySorted Z.le (skipn n l).
Proof.
  revert l. induction n as [|n IH]; intros l Hs; simpl; auto.
  destruct l as [|a l]; auto.
  apply IH. inversion Hs; auto.
Qed.

Lemma window_length (b : Buffer) :
  window b ->
  length (items b) = Nat.min historyLength (length (appended b)).
Proof. unfold window. intros ->. apply length_lastn. Qed.

Lemma window_empty_log (b : Buffer) :
  window b -> items b = [] -> appended b = [].
Proof.
  intros Hw Hnil. pose proof (window_length Hw) as H.
  rewrite Hnil in H. unfold historyLength in H. simpl in H.
  destruct (appended b); [reflexivity | simpl in H; lia].
Qed.

Lemma generateDemoHistory_window (b : Buffer) (e : Env) :
  window b -> window (generateDemoHistory b e).
Proof.
  intros Hw. unfold generateDemoHistory.
  destruct (Nat.eqb_spec (length (items b)) 0) as [H0|H0].
  - apply length_zero_iff_nil in H0.
    pose proof (window_empty_log Hw H0) as Hlog.
    destruct (initLoop_pushes e historyLength 0 b)
      as (pts & Hlen & Hit & Hap & _).
    unfold window. rewrite Hit, Hap, H0, Hlog. simpl.
    symmetry. apply lastn_short. lia.
  - cbv zeta.
    pose proof (window_length Hw) as Hlen. unfold window in Hw.
    destruct (Nat.ltb_spec historyLength (length (items (push b (demoPoint (now e) e 0)))))
      as [Hfull|Hroom]; unfold push in *; cbn [items appended] in *;
      rewrite last_length in *.
    + unfold window, shift. cbn [items appended].
      rewrite lastn_snoc_full by (unfold historyLength in *; lia).
      rewrite <- Hw.
      destruct (items b); [simpl in H0; lia | reflexivity].
    + unfold window. cbn [items appended].
      rewrite lastn_short by (rewrite last_length; lia).
      f_equal. rewrite Hw. apply lastn_short. lia.
Qed.

Lemma generateDemoHistory_chronological (b : Buffer) (e : Env) :
  window b -> chronological (now e) b ->
  chronological (now e) (generateDemoHistory b e).
Proof.
  intros Hw [Hs Hle]. unfold generateDemoHistory.
  destruct (Nat.eqb_spec (length (items b)) 0) as [H0|H0].
  - apply length_zero_iff_nil in H0.
    pose proof (window_empty_log Hw H0) as Hlog.
    destruct (initLoop_pushes e historyLength 0 b)
      as (pts & _ & _ & Hap & Hsorted & Hbound).
    unfold chronological. rewrite Hap, Hlog. simpl. split; auto.
    eapply Forall_impl; [|exact Hbound]. simpl. intros; lia.
  - assert (Hpush : chronological (now e) (push b (demoPoint (now e) e 0))).
    { unfold chronological. simpl. rewrite map_app. simpl. split.
      - apply StronglySorted_snoc; auto. rewrite Forall_map. exact Hle.
      - apply Forall_app. split; auto. repeat constructor. simpl. lia. }
    cbv zeta.
    destruct (historyLength <? _)%nat; exact Hpush.
Qed.

Lemma chronological_later (t t' : Z) (b : Buffer) :
  (t <= t')%Z -> chronological t b -> chronological t' b.
Proof.
  intros Ht [Hs Hle]. split; auto.
  eapply Forall_impl; [|exact Hle]. simpl. intros; lia.
Qed.

Lemma run_snoc (es : list Env) (e : Env) :
  run (es ++ [e]) = generateDemoHistory (run es) e.
Proof. unfold run. rewrite fold_left_app. reflexivity. Qed.

Lemma run_window (es : list Env) : window (run es).
Proof.
  induction es as [|e es IH] using rev_ind.
  - reflexivity.
  - rewrite run_snoc. apply generateDemoHistory_window, IH.
Qed.

Lemma run_chronological (es : list Env) :
  StronglySorted Z.le (map now es) ->
  forall t, Forall (fun e => (now e <= t)%Z) es -> chronological t (run es).
Proof.
  induction es as [|e es IH] using rev_ind; intros Hclock t Ht.
  - split; constructor.
  - rewrite run_snoc.
    apply Forall_app in Ht. destruct Ht as [_ Ht]. inversion Ht; subst.
    apply chronological_later with (t := now e); auto.
    apply generateDemoHistory_chronological; [apply run_window|].
    rewrite map_app in Hclock. simpl in Hclock.
    apply IH.
    + clear - Hclock. induction es as [|a es IH]; simpl in *; [constructor|].
      inversion Hclock; subst. constructor; auto.
      apply Forall_app in H2. tauto.
    + clear - Hclock. induction es as [|a es IH]; simpl in *; constructor.
      * inversion Hclock; subst. apply Forall_app in H2.
        destruct H2 as [_ H2]. inversion H2; auto.
      * apply IH. inversion Hclock; auto.
Qed.

(** After the first call the array is full and stays full. *)
Lemma run_full (es : list Env) :
  es <> [] -> length (items (run es)) = historyLength.
Proof.
  induction es as [|e es IH] using rev_ind; intros Hne; [congruence|].
  rewrite run_snoc. unfold generateDemoHistory.
  destruct (Nat.eqb_spec (length (items (run es))) 0) as [H0|H0].
  - destruct (initLoop_pushes e historyLength 0 (run es))
      as (pts & Hlen & Hit & _).
    apply length_zero_iff_nil in H0. rewrite Hit, H0. exact Hlen.
  - destruct es as [|e0 es0].
    + simpl in H0. congruence.
    + assert (Hfull : length (items (run (e0 :: es0))) = historyLength)
        by (apply IH; congruence).
      cbv zeta. simpl items at 1. rewrite length_app, Hfull. simpl.
      unfold shift. simpl.
      destruct (items (run (e0 :: es0))) as [|p0 its]; simpl in *.
      * discriminate.
      * rewrite length_app. simpl. unfold historyLength in *. lia.
Qed.

Lemma run_cons_snoc (e : Env) (es : list Env) (e' : Env) :
  run (e :: es ++ [e']) = generateDemoHistory (run (e :: es)) e'.
Proof. apply (run_snoc (e :: es) e'). Qed.

Lemma generateDemoHistory_on_full (b : Buffer) (e : Env) :
  length (items b) = historyLength ->
  items (generateDemoHistory b e) = tl (items b) ++ [demoPoint (now e) e 0]
  /\ appended (generateDemoHistory b e) = appended b ++ [demoPoint (now e) e 0].
Proof.
  intros Hfull. unfold generateDemoHistory.
  destruct (Nat.eqb_spec (length (items b)) 0) as [H0|H0].
  - unfold historyLength in Hfull. lia.
  - cbv zeta.
    destruct (Nat.ltb_spec historyLength
                (length (items (push b (demoPoint (now e) e 0))))) as [Hlt|Hge].
    + unfold shift, push. cbn [items appended].
      destruct (items b); [simpl in H0; lia|]. split; reflexivity.
    + unfold push in Hge. cbn [items] in Hge. rewrite last_length in Hge. lia.
Qed.

(** The log of pushes is what the calls are to push. *)
Lemma appended_pushed (es : list Env) : appended (run es) = pushed es.
Proof.
  destruct es as [|e es]; [reflexivity|].
  induction es as [|e' es IH] using rev_ind.
  - reflexivity.
  - rewrite run_cons_snoc.
    destruct (@generateDemoHistory_on_full (run (e :: es)) e') as [_ ->].
    { apply run_full. discriminate. }
    rewrite IH. unfold pushed. rewrite map_app, <- app_assoc. reflexivity.
Qed.

(** C2. Across any sequence of calls from the empty array: the array never
    holds more than [historyLength] (60) snapshots; the snapshots pushed
    are those the calls are to push (the one-minute backfill of the first
    call, then one snapshot per call), and the array is exactly the last 60
    of them, in push order; from the first call on it holds exactly 60; a
    call on a filled array drops the head, the oldest entry, and puts the
    new snapshot at the tail; and when the clock readings of the calls do
    not go backwards the timestamps in the array are non-decreasing. *)
Theorem history_window_bounded_fifo (es : list Env) :
  (length (items (run es)) <= historyLength)%nat
  /\ appended (run es) = pushed es
  /\ items (run es) = lastn historyLength (pushed es)
  /\ (es <> [] -> length (items (run es)) = historyLength)
  /\ (forall e, es <> [] ->
        items (run (es ++ [e])) =
        tl (items (run es)) ++ [demoPoint (now e) e 0])
  /\ (StronglySorted Z.le (map now es) ->
       StronglySorted Z.le (map timestamp (items (run es)))).
Proof.
  pose proof (run_window es) as Hw.
  pose proof (window_length Hw) as Hlen.
  split; [lia|]. split; [apply appended_pushed|].
  split; [rewrite <- appended_pushed; exact Hw|].
  split; [apply run_full|]. split.
  - intros e Hne.
    rewrite run_snoc.
    destruct (@generateDemoHistory_on_full (run es) e) as [-> _];
      [apply run_full, Hne | reflexivity].
  - intros Hclock.
    assert (Hc : exists t, Forall (fun e => (now e <= t)%Z) es).
    { clear. induction es as [|e es [t IH]].
      - exists 0%Z. constructor.
      - exists (Z.max t (now e)). constructor; [lia|].
        eapply Forall_impl; [|exact IH]. simpl. intros; lia. }
    destruct Hc as [t Ht].
    destruct (run_chronological Hclock Ht) as [Hs _].
    rewrite Hw. unfold lastn. rewrite <- skipn_map.
    apply StronglySorted_skipn, Hs.
Qed.

Lemma history_window_bounded_fifo_witness :
  length (items (run [env0; env1])) = historyLength
  /\ StronglySorted Z.le (map timestamp (items (run [env0; env1]))).
Proof.
  destruct (history_window_bounded_fifo [env0; env1])
    as (_ & _ & _ & Hfull & _ & Hsorted).
  split.
  - apply Hfull. discriminate.
  - apply Hsorted. simpl. repeat constructor. lia.
Defined.

(** C2 fails where it says that the push order is the order by timestamp:
    the code stamps each snapshot with [Date.now()] and nothing else orders
    the array.  When the clock reads 2000 at the first call and 1000 at the
    second, the array ends with the timestamps 2000, 1000 and is not in
    non-decreasing timestamp order. *)
Lemma history_order_follows_the_clock :
  ~ StronglySorted Z.le (map timestamp (items (run [env1; env0]))).
Proof.
  intros H. apply StronglySorted_skipn with (n := 58%nat) in H.
  vm_compute in H.
  inversion H as [|a l _ Hle]; subst.
  inversion Hle as [|b l' Hab _]; subst.
  apply Hab. reflexivity.
Qed.

End HistoryWindow.


(** ** Totals *)

Section StatAggregation.
Import Client.

Lemma reduce_sum_from (f : ClientTraffic -> option Z) (clients : list ClientTraffic) :
  Forall (present f) clients ->
  forall a : Z,
    fold_left (fun sum c => Js.add sum (Js.ToNumber (Js.of_number (f c))))
              clients (Js.Fin a)
    = Js.Fin (a + sum_of f clients).
Proof.
  induction 1 as [|c clients Hc _ IH]; intros a; simpl.
  - f_equal. lia.
  - unfold present in Hc. destruct (f c) as [n|]; [|congruence].
    simpl. rewrite IH. f_equal. lia.
Qed.

Lemma reduce_sum_present (f : ClientTraffic -> option Z) (clients : list ClientTraffic) :
  Forall (present f) clients ->
  Stats.reduce_sum f clients = Js.Fin (sum_of f clients).
Proof. intros H. unfold Stats.reduce_sum. rewrite reduce_sum_from; auto. Qed.

Lemma combined_from (clients : list ClientTraffic) :
  Forall (present download) clients -> Forall (present upload) clients ->
  forall a : Z,
    fold_left
      (fun sum c =>
         Js.add (Js.add sum (Js.ToNumber (Js.of_number (download c))))
                (Js.ToNumber (Js.of_number (upload c))))
      clients (Js.Fin a)
    = Js.Fin (a + (sum_of download clients + sum_of upload clients)).
Proof.
  induction 1 as [|c clients Hd _ IH]; intros Hu a; simpl.
  - f_equal. lia.
  - inversion Hu as [|? ? Hu1 Hu2]; subst. unfold present in Hd, Hu1.
    destruct (download c) as [d|]; [|congruence].
    destruct (upload c) as [u|]; [|congruence].
    simpl. rewrite IH by assumption. f_equal. lia.
Qed.

(** C8. The totals are functions of the device list alone.  On a list
    whose devices all carry their byte counters, the totals are the sum of
    the downloaded bytes, the sum of the uploaded bytes and the sum of the
    two; on a list whose devices all carry their rates, the speed totals
    are the sums of the download and of the upload rates.  On the empty
    list every total is zero, and the list
    [{download:100,upload:50},{download:200,upload:25}] gives
    {download:300, upload:75, combined:375}. *)
Theorem stat_aggregation_sums :
  (forall clients,
      Forall (present download) clients -> Forall (present upload) clients ->
      Stats.totalTraffic clients =
      Totals.mkTotal (Js.Fin (sum_of download clients))
                     (Js.Fin (sum_of upload clients))
                     (Js.Fin (sum_of download clients + sum_of upload clients))
      /\ Stats.generateDemoTotal clients = Stats.totalTraffic clients)
  /\ (forall clients,
      Forall (present downloadSpeed) clients -> Forall (present uploadSpeed) clients ->
      Stats.totalDownloadSpeed clients = Js.Fin (sum_of downloadSpeed clients)
      /\ Stats.totalUploadSpeed clients = Js.Fin (sum_of uploadSpeed clients))
  /\ Stats.totalTraffic [] = Totals.mkTotal (Js.Fin 0) (Js.Fin 0) (Js.Fin 0)
  /\ Stats.totalDownloadSpeed [] = Js.Fin 0
  /\ Stats.totalUploadSpeed [] = Js.Fin 0
  /\ Stats.totalTraffic example_clients =
     Totals.mkTotal (Js.Fin 300) (Js.Fin 75) (Js.Fin 375).
Proof.
  split; [|split; [|repeat split]].
  - intros clients Hd Hu.
    assert (Ht : Stats.totalTraffic clients =
                 Totals.mkTotal (Js.Fin (sum_of download clients))
                   (Js.Fin (sum_of upload clients))
                   (Js.Fin (sum_of download clients + sum_of upload clients))).
    { unfold Stats.totalTraffic.
      rewrite !reduce_sum_present by assumption.
      rewrite combined_from by assumption. reflexivity. }
    split; [exact Ht|].
    rewrite Ht. unfold Stats.generateDemoTotal.
    rewrite !reduce_sum_present by assumption. reflexivity.
  - intros clients Hd Hu. unfold Stats.totalDownloadSpeed, Stats.totalUploadSpeed.
    rewrite !reduce_sum_present by assumption. split; reflexivity.
Qed.

Lemma stat_aggregation_sums_witness :
  Stats.totalTraffic example_clients =
  Totals.mkTotal (Js.Fin (sum_of download example_clients))
                 (Js.Fin (sum_of upload example_clients))
                 (Js.Fin (sum_of download example_clients
                          + sum_of upload example_clients)).
Proof.
  apply (proj1 stat_aggregation_sums example_clients);
    repeat constructor; unfold present; simpl; discriminate.
Defined.

End StatAggregation.


(** ** Sort state *)

Section SortState.
Import SortEngine.

Lemma SortField_eqb_eq (f g : SortField) : SortField_eqb f g = true <-> f = g.
Proof. destruct f, g; simpl; split; intros H; congruence. Qed.

(** C10. A sort action on the active field flips the direction and keeps
    the field; a sort action on another field makes it the active field
    and sets the direction to descending.  The header click handler of
    the standalone script does the same as handleSort. *)
Theorem sort_action_transition (s : SortSpec) (field : SortField) :
  (field = sortField s ->
   handleSort s field =
   {| sortField := sortField s; sortDirection := flip (sortDirection s) |})
  /\ (field <> sortField s ->
      handleSort s field = {| sortField := field; sortDirection := desc |})
  /\ onSortableClick s field = handleSort s field.
Proof.
  unfold handleSort, onSortableClick.
  destruct (SortField_eqb (sortField s) field) eqn:E.
  - apply SortField_eqb_eq in E. repeat split; try reflexivity. congruence.
  - repeat split; try reflexivity. intros ->.
    assert (SortField_eqb (sortField s) (sortField s) = true)
      by (apply SortField_eqb_eq; reflexivity).
    congruence.
Qed.

Lemma sort_action_transition_witness :
  handleSort initialSort f_downloadSpeed =
    {| sortField := f_downloadSpeed; sortDirection := asc |}
  /\ handleSort initialSort f_hostname =
    {| sortField := f_hostname; sortDirection := desc |}.
Proof.
  split.
  - apply (proj1 (sort_action_transition initialSort f_downloadSpeed)).
    reflexivity.
  - apply (proj1 (proj2 (sort_action_transition initialSort f_hostname))).
    simpl. discriminate.
Defined.

End SortState.


(** ** Chart scale and degenerate series *)

Section ChartScale.
Import History Chart.

Lemma fold_Qmax_bounds (l : list Q) :
  forall a : Q,
    a <= fold_left Qmax l a
    /\ (forall v, In v l -> v <= fold_left Qmax l a)
    /\ (fold_left Qmax l a = a \/ In (fold_left Qmax l a) l).
Proof.
  induction l as [|x l IH]; intros a; simpl.
  - split; [apply Qle_refl|]. split; [tauto | left; reflexivity].
  - destruct (IH (Qmax a x)) as (Hge & Hall & Hin).
    split; [|split].
    + eapply Qle_trans; [apply Q.le_max_l | exact Hge].
    + intros v [<-|Hv]; [|auto].
      eapply Qle_trans; [apply Q.le_max_r | exact Hge].
    + destruct Hin as [Heq|Hin]; [|right; right; exact Hin].
      rewrite Heq. unfold Qmax, GenericMinMax.gmax.
      destruct (a ?= x); [left | right; left | left]; reflexivity.
Qed.

Lemma fold_Qmax_least (l : list Q) (a b : Q) :
  a <= b -> (forall v, In v l -> v <= b) -> fold_left Qmax l a <= b.
Proof.
  revert a. induction l as [|x l IH]; intros a Ha Hl; simpl; auto.
  apply IH.
  - apply Q.max_lub; auto. apply Hl. left; reflexivity.
  - intros v Hv. apply Hl. right; exact Hv.
Qed.

Lemma maxValue_at_least_1 (history : list BandwidthSnapshot) :
  1 <= maxValue history.
Proof. exact (proj1 (fold_Qmax_bounds (allValues history) 1)). Qed.

(** C6. The scale denominator is at least 1, is at least every download
    and upload value of the series, and is either the floor 1 or one of
    those values: it is their maximum, floored at 1.  It is therefore
    never zero, and it is 1 when every value of the series is zero. *)
Theorem maxValue_is_floored_maximum (history : list BandwidthSnapshot) :
  1 <= maxValue history
  /\ (forall p, In p history ->
        download p <= maxValue history /\ upload p <= maxValue history)
  /\ (maxValue history = 1 \/
      exists p, In p history /\
                (maxValue history = download p \/ maxValue history = upload p))
  /\ ~ maxValue history == 0
  /\ ((forall p, In p history -> download p == 0 /\ upload p == 0) ->
      maxValue history == 1).
Proof.
  unfold maxValue.
  destruct (fold_Qmax_bounds (allValues history) 1) as (Hge & Hall & Hin).
  split; [exact Hge|]. split; [|split; [|split]].
  - intros p Hp. split; apply Hall; unfold allValues; apply in_flat_map;
      exists p; simpl; auto.
  - destruct Hin as [H1|Hin]; [left; exact H1|right].
    unfold allValues in Hin. apply in_flat_map in Hin.
    destruct Hin as (p & Hp & Hv). exists p. split; [exact Hp|].
    simpl in Hv. destruct Hv as [Hv|[Hv|[]]]; [left | right]; symmetry; exact Hv.
  - intros H0. rewrite H0 in Hge. revert Hge. apply Qlt_not_le. reflexivity.
  - intros Hzero. apply Qle_antisym; [|exact Hge].
    apply fold_Qmax_least; [apply Qle_refl|].
    intros v Hv. unfold allValues in Hv. apply in_flat_map in Hv.
    destruct Hv as (p & Hp & Hv). destruct (Hzero p Hp) as [Hd Hu].
    simpl in Hv. destruct Hv as [<-|[<-|[]]]; [rewrite Hd | rewrite Hu];
      discriminate.
Qed.

Lemma maxValue_is_floored_maximum_witness :
  maxValue [flat_snapshot; flat_snapshot] == 1.
Proof.
  apply (proj2 (proj2 (proj2 (proj2
           (maxValue_is_floored_maximum [flat_snapshot; flat_snapshot]))))).
  intros p [<-|[<-|[]]]; split; reflexivity.
Defined.

(** C7. With no snapshot (or before the canvas exists) updateChart makes
    no call on the drawing context.  For any series of [k >= 1] points
    the divisor of the horizontal step is [max (k - 1) 1], which is
    positive, and it is 1 for a single point; the scale denominator is
    positive as well, so no coordinate divides by zero.  For a single
    point the drawing is made and every path point lies on the left edge
    of the plot area: a degenerate, flat figure. *)
Theorem updateChart_degenerate_series :
  (forall chart, updateChart chart [] = [])
  /\ (forall history, updateChart None history = [])
  /\ (forall k, stepDivisor (S k) = Z.max (Z.of_nat (S k) - 1) 1
                /\ (0 < stepDivisor (S k))%Z)
  /\ stepDivisor 1 = 1%Z
  /\ (forall history, 0 < maxValue history)
  /\ (forall c p, updateChart (Some c) [p] <> []
                  /\ Forall on_left_edge (updateChart (Some c) [p])).
Proof.
  split; [|split; [|split; [|split; [|split]]]].
  - intros [c|]; reflexivity.
  - reflexivity.
  - intros k. unfold stepDivisor.
    destruct (Z.eqb_spec (Z.of_nat (S k) - 1) 0); lia.
  - reflexivity.
  - intros history.
    eapply Qlt_le_trans; [|apply maxValue_at_least_1]. reflexivity.
  - intros c p. split; [discriminate|].
    unfold updateChart, drawArea, pointX, stepX. simpl.
    repeat constructor; simpl; unfold stepDivisor; simpl; field.
Qed.

End ChartScale.


(** ** Poll scheduler: one cycle at a time *)

Section Reentrancy.
Import Scheduler.
Variable demoMode : bool.

Lemma stepVanilla_flag_counts (sys : Sys Vanilla.State) (ev : Event) :
  flag_counts sys -> flag_counts (stepVanilla demoMode sys ev).
Proof.
  unfold flag_counts. intros H. destruct ev as [|d r]; simpl.
  - unfold Vanilla.refreshData_enter.
    destruct (Vanilla.isRefreshing (state sys)) eqn:E; simpl.
    + rewrite E. exact H.
    + rewrite H. reflexivity.
  - destruct (inFlight sys) as [|n] eqn:En; simpl.
    + rewrite En. exact H.
    + destruct (Vanilla.isRefreshing (state sys)); congruence.
Qed.

Lemma runVanilla_flag_counts (evs : list Event) :
  flag_counts (runVanilla demoMode evs).
Proof.
  unfold runVanilla.
  induction evs as [|ev evs IH] using rev_ind.
  - reflexivity.
  - rewrite fold_left_app. simpl. apply stepVanilla_flag_counts, IH.
Qed.

(** The standalone script: under every pattern of triggers and settling
    reads at most one cycle is in flight, and a trigger that arrives
    while the flag is set changes nothing. *)
Lemma vanilla_single_flight (evs : list Event) :
  (inFlight (runVanilla demoMode evs) <= 1)%nat
  /\ (Vanilla.isRefreshing (state (runVanilla demoMode evs)) = true ->
      runVanilla demoMode (evs ++ [Trigger]) = runVanilla demoMode evs).
Proof.
  pose proof (runVanilla_flag_counts evs) as H. unfold flag_counts in H.
  split.
  - rewrite H. destruct (Vanilla.isRefreshing _); lia.
  - intros E. unfold runVanilla in *. rewrite fold_left_app. simpl.
    unfold Vanilla.refreshData_enter. rewrite E. reflexivity.
Qed.

(** The React page starts a cycle at every call: with no read settled,
    as many cycles are in flight as refreshData was called. *)
Lemma react_every_trigger_starts (n : nat) :
  inFlight (runReact demoMode (repeat Trigger n)) = n.
Proof.
  unfold runReact.
  assert (H : forall sys,
             inFlight (fold_left (stepReact demoMode) (repeat Trigger n) sys)
             = (inFlight sys + n)%nat).
  { induction n as [|k IH]; intros sys; simpl.
    - lia.
    - rewrite IH. simpl. lia. }
  rewrite H. reflexivity.
Qed.

(** C1, at the input where the React page departs from it: two calls of
    refreshData with no settled read in between leave two cycles in
    flight, where the standalone script has one. *)
Theorem react_triggers_overlap :
  inFlight (runReact false [Trigger; Trigger]) = 2%nat
  /\ inFlight (runVanilla false [Trigger; Trigger]) = 1%nat.
Proof. split; reflexivity. Qed.

End Reentrancy.


(** ** Reads that fail *)

Section ReadFailures.
Import Client Api.

Lemma request_payload (T : Type) (message : string) (r : Response T) :
  match payload r with
  | Some v => request message r = Js.Normal v
  | None => exists e, request message r = Js.Throw e
  end.
Proof.
  destruct r as [|[|] [v|]]; simpl; eauto.
Qed.

Lemma try_request (T : Type) (message : string) (r : Response T) (d : T) :
  Js.try_catch (request message r) d = or_default (payload r) d.
Proof. destruct r as [|[|] [v|]]; reflexivity. Qed.

(** C3, as the code has it.  In the standalone script, outside demo mode,
    each of the three reads yields the payload of its own request, or its
    own default when that request fails (no device, no history, a stopped
    service on interface "unknown" with uptime 0), whatever happens to
    the other two, and the cycle stores the three results and clears the
    flag.  In the React page, outside demo mode, the cycle stores the four
    payloads when every read succeeds; when a read fails nothing is
    stored: the state is the previous one with the flag cleared. *)
Theorem reads_fall_back_in_script_abort_in_react :
  (forall (s : Vanilla.State) (d : Demo) (r : Responses),
      Vanilla.fetchClients false d r = or_default (payload (r_clients r)) []
      /\ Vanilla.fetchHistory false d r = or_default (payload (r_history r)) []
      /\ Vanilla.fetchStatus false d r =
         or_default (payload (r_status r)) status_fallback
      /\ Vanilla.refreshData_settle false s d r =
         {| Vanilla.clients := or_default (payload (r_clients r)) [];
            Vanilla.history := or_default (payload (r_history r)) [];
            Vanilla.totalTraffic :=
              Stats.totalTraffic (or_default (payload (r_clients r)) []);
            Vanilla.status := or_default (payload (r_status r)) status_fallback;
            Vanilla.currentInterface := Vanilla.currentInterface s;
            Vanilla.sortSpec := Vanilla.sortSpec s;
            Vanilla.isRefreshing := false |})
  /\ (forall (s : React.State) (d : Demo) (r : Responses),
      React.refreshData_settle false s d r =
      match payload (r_clients r), payload (r_history r),
            payload (r_stats r), payload (r_status r) with
      | Some c, Some h, Some t, Some st =>
          {| React.clients := c;
             React.history := h;
             React.totalTraffic := Some t;
             React.status := Some st;
             React.isRefreshing := false;
             React.currentInterface := React.currentInterface s |}
      | _, _, _, _ => React.setIsRefreshing s false
      end).
Proof.
  split.
  - intros s d r.
    assert (Hc : Vanilla.fetchClients false d r = or_default (payload (r_clients r)) [])
      by apply try_request.
    assert (Hh : Vanilla.fetchHistory false d r = or_default (payload (r_history r)) [])
      by apply try_request.
    assert (Hs : Vanilla.fetchStatus false d r =
                 or_default (payload (r_status r)) status_fallback)
      by apply try_request.
    repeat split; auto.
    unfold Vanilla.refreshData_settle. rewrite Hc, Hh, Hs. reflexivity.
  - intros s d r. unfold React.refreshData_settle.
    unfold React.fetchClients, React.fetchHistory, React.fetchTotalTraffic,
      React.fetchStatus.
    destruct r as [rc rh rt rs]. simpl.
    destruct rc as [|[|] [c|]]; simpl; try reflexivity;
      destruct rh as [|[|] [h|]]; simpl; try reflexivity;
        destruct rt as [|[|] [t|]]; simpl; try reflexivity;
          destruct rs as [|[|] [st|]]; simpl; reflexivity.
Qed.

(** C3 fails on the React page: with the device list unreachable the
    read does not return the empty list but throws, and the history and
    status that were read are not stored. *)
Lemma react_read_failure_aborts_cycle :
  React.fetchClients false no_demo clients_down <> Js.Normal []
  /\ payload (r_history clients_down) = Some [one_snapshot]
  /\ React.history
       (React.refreshData_settle false React.initialState no_demo clients_down)
     <> [one_snapshot]
  /\ React.status
       (React.refreshData_settle false React.initialState no_demo clients_down)
     <> Some running_status.
Proof. repeat split; simpl; discriminate. Qed.

End ReadFailures.


(** ** The engine's sort: permutation and stability *)

Section SortFacts.
Variable A : Type.
Variable comparefn : A -> A -> Js.completion Js.number.

Lemma Before_cons (x a b : A) (l : list A) :
  Before a b l -> Before a b (x :: l).
Proof.
  intros (l1 & l2 & l3 & ->). exists (x :: l1), l2, l3. reflexivity.
Qed.

Lemma Before_head (a b : A) (l : list A) : In b l -> Before a b (a :: l).
Proof.
  intros Hin. apply in_split in Hin. destruct Hin as (l2 & l3 & ->).
  exists [], l2, l3. reflexivity.
Qed.

Lemma Before_inv (x a b : A) (l : list A) :
  Before a b (x :: l) -> (a = x /\ In b l) \/ Before a b l.
Proof.
  intros (l1 & l2 & l3 & H). destruct l1 as [|y l1]; simpl in H.
  - injection H as -> ->. left. split; [reflexivity|].
    apply in_or_app. right. left. reflexivity.
  - injection H as -> ->. right. exists l1, l2, l3. reflexivity.
Qed.

Lemma insert_Permutation (x : A) (sorted r : list A) :
  Js.insert comparefn x sorted = Js.Normal r -> Permutation (x :: sorted) r.
Proof.
  revert r. induction sorted as [|y rest IH]; intros r H; simpl in H.
  - injection H as <-. apply Permutation_refl.
  - destruct (comparefn x y) as [v|e]; simpl in H; [|discriminate].
    destruct (Js.positive v).
    + destruct (Js.insert comparefn x rest) as [r'|e]; simpl in H; [|discriminate].
      injection H as <-.
      eapply perm_trans; [apply perm_swap|].
      apply perm_skip, IH. reflexivity.
    + injection H as <-. apply Permutation_refl.
Qed.

Lemma sort_Permutation (l r : list A) :
  Js.sort comparefn l = Js.Normal r -> Permutation l r.
Proof.
  revert r. induction l as [|x rest IH]; intros r H; simpl in H.
  - injection H as <-. constructor.
  - destruct (Js.sort comparefn rest) as [s|e]; simpl in H; [|discriminate].
    eapply perm_trans; [apply perm_skip, IH; reflexivity|].
    apply insert_Permutation, H.
Qed.

Lemma insert_keeps_order (x a b : A) (sorted r : list A) :
  Js.insert comparefn x sorted = Js.Normal r ->
  Before a b sorted -> Before a b r.
Proof.
  revert r. induction sorted as [|y rest IH]; intros r H Hab; simpl in H.
  - destruct Hab as (l1 & l2 & l3 & Hnil). destruct l1; discriminate.
  - destruct (comparefn x y) as [v|e]; simpl in H; [|discriminate].
    destruct (Js.positive v).
    + destruct (Js.insert comparefn x rest) as [r'|e] eqn:Hi; simpl in H;
        [|discriminate].
      injection H as <-.
      apply Before_inv in Hab. destruct Hab as [[-> Hin]|Hab].
      * apply Before_head.
        eapply Permutation_in; [apply insert_Permutation, Hi|].
        right. exact Hin.
      * apply Before_cons, IH; auto.
    + injection H as <-. apply Before_cons, Hab.
Qed.

Lemma insert_stops_early (x b : A) (sorted r : list A) :
  Js.insert comparefn x sorted = Js.Normal r ->
  In b sorted -> keeps_before comparefn x b -> Before x b r.
Proof.
  revert r. induction sorted as [|y rest IH]; intros r H Hin Hkeep; simpl in H.
  - destruct Hin.
  - destruct (comparefn x y) as [v|e] eqn:Hc; simpl in H; [|discriminate].
    destruct (Js.positive v) eqn:Hp.
    + destruct (Js.insert comparefn x rest) as [r'|e]; simpl in H; [|discriminate].
      injection H as <-.
      destruct Hin as [->|Hin].
      * destruct Hkeep as (v' & Hv' & Hn). congruence.
      * apply Before_cons, IH; auto.
    + injection H as <-. apply Before_head, Hin.
Qed.

(** Whenever the sort returns, an element that stood before another and
    that the comparator does not order after it still stands before it. *)
Lemma sort_stable (l r : list A) (a b : A) :
  Js.sort comparefn l = Js.Normal r ->
  Before a b l -> keeps_before comparefn a b -> Before a b r.
Proof.
  revert r. induction l as [|x rest IH]; intros r H Hab Hkeep; simpl in H.
  - destruct Hab as (l1 & l2 & l3 & Hnil). destruct l1; discriminate.
  - destruct (Js.sort comparefn rest) as [s|e] eqn:Hs; simpl in H; [|discriminate].
    apply Before_inv in Hab. destruct Hab as [[-> Hin]|Hab].
    + eapply insert_stops_early; eauto.
      eapply Permutation_in; [apply sort_Permutation, Hs | exact Hin].
    + eapply insert_keeps_order; eauto.
Qed.

(** The sort returns when the comparator returns on the elements. *)
Lemma insert_returns (x : A) (sorted : list A) :
  (forall y, In y sorted -> exists v, comparefn x y = Js.Normal v) ->
  exists r, Js.insert comparefn x sorted = Js.Normal r.
Proof.
  induction sorted as [|y rest IH]; intros Hc; simpl.
  - eauto.
  - destruct (Hc y (or_introl eq_refl)) as [v ->]. simpl.
    destruct (Js.positive v); [|eauto].
    destruct IH as [r ->]; [intros; apply Hc; right; assumption|].
    simpl. eauto.
Qed.

Lemma sort_returns (l : list A) :
  (forall x y, In x l -> In y l -> exists v, comparefn x y = Js.Normal v) ->
  exists r, Js.sort comparefn l = Js.Normal r.
Proof.
  induction l as [|x rest IH]; intros Hc; simpl.
  - eauto.
  - destruct IH as [s Hs].
    { intros a b Ha Hb. apply Hc; right; assumption. }
    rewrite Hs. simpl. apply insert_returns.
    intros y Hy. apply Hc; [left; reflexivity|right].
    eapply Permutation_in; [apply Permutation_sym, sort_Permutation, Hs|exact Hy].
Qed.

End SortFacts.


(** ** The device table *)

Section DeviceTable.
Import Client SortEngine.
Variable localeCompare : string -> string -> Z.

Lemma shortHostnameOf_fallback (h : option string) :
  shortHostnameOf (Js.logical_or (Js.of_string h) (Js.VString ""))
  = Formatters.shortHostname h.
Proof.
  destruct h as [[|c r]|]; reflexivity.
Qed.

(** Under the display-name field both comparators compare the order
    keys with the collation, in the sense of the direction. *)
Lemma compare_hostname_by_key (dir : SortDirection) (a b : ClientTraffic) :
  compareReact localeCompare (mkSortSpec f_hostname dir) a b
  = Js.Normal (Js.Fin (directed localeCompare dir (orderKey (hostname a)) (orderKey (hostname b))))
  /\ compareVanilla localeCompare (mkSortSpec f_hostname dir) a b
     = Js.Normal (Js.Fin (directed localeCompare dir (orderKey (hostname a)) (orderKey (hostname b)))).
Proof.
  unfold compareReact, compareVanilla, compareValues. simpl.
  rewrite !shortHostnameOf_fallback.
  destruct dir; split; reflexivity.
Qed.

Lemma compareReact_returns (s : SortSpec) (a b : ClientTraffic) :
  typed a -> exists v, compareReact localeCompare s a b = Js.Normal v.
Proof.
  intros (Hd & Hu & Hds & Hus).
  destruct s as [f dir]. unfold compareReact, compareValues.
  destruct f; simpl.
  - destruct dir; simpl; eauto.
  - destruct (ip a), (ip b), dir; simpl; eauto.
  - destruct (download a); [simpl; eauto | congruence].
  - destruct (upload a); [simpl; eauto | congruence].
  - destruct (downloadSpeed a); [simpl; eauto | congruence].
  - destruct (uploadSpeed a); [simpl; eauto | congruence].
Qed.

Lemma compareVanilla_returns (s : SortSpec) (a b : ClientTraffic) :
  nonzero a -> exists v, compareVanilla localeCompare s a b = Js.Normal v.
Proof.
  intros ((d & Hd & Hd0) & (u & Hu & Hu0) & (ds & Hds & Hds0) & (us & Hus & Hus0)).
  destruct s as [f dir]. unfold compareVanilla, compareValues.
  destruct f; simpl.
  - destruct dir; simpl; eauto.
  - destruct (ip a) as [[|? ?]|], (ip b) as [[|? ?]|], dir; simpl; eauto.
  - rewrite Hd. unfold Js.logical_or. simpl.
    apply Z.eqb_neq in Hd0. rewrite Hd0. simpl. eauto.
  - rewrite Hu. unfold Js.logical_or. simpl.
    apply Z.eqb_neq in Hu0. rewrite Hu0. simpl. eauto.
  - rewrite Hds. unfold Js.logical_or. simpl.
    apply Z.eqb_neq in Hds0. rewrite Hds0. simpl. eauto.
  - rewrite Hus. unfold Js.logical_or. simpl.
    apply Z.eqb_neq in Hus0. rewrite Hus0. simpl. eauto.
Qed.

(** Neither comparator ever returns NaN: a subtraction only meets numbers
    and the empty string of the fallback. *)
Lemma comparators_return_integers (s : SortSpec) (a b : ClientTraffic) (v : Js.number) :
  compareReact localeCompare s a b = Js.Normal v
  \/ compareVanilla localeCompare s a b = Js.Normal v ->
  exists z, v = Js.Fin z.
Proof.
  destruct s as [f dir]. unfold compareReact, compareVanilla, compareValues.
  intros [H|H]; revert H; destruct f, dir; simpl;
    repeat match goal with
           | |- context [ip ?c] => destruct (ip c) as [[|? ?]|]
           | |- context [download ?c] => destruct (download c) as [[|?|?]|]
           | |- context [upload ?c] => destruct (upload c) as [[|?|?]|]
           | |- context [downloadSpeed ?c] => destruct (downloadSpeed c) as [[|?|?]|]
           | |- context [uploadSpeed ?c] => destruct (uploadSpeed c) as [[|?|?]|]
           end;
    simpl; intros H; try discriminate; injection H as <-; eauto.
Qed.

Lemma tie_keeps_before (A : Type) (cmp : A -> A -> Js.completion Js.number)
      (a b : A) :
  cmp a b = Js.Normal (Js.Fin 0) -> keeps_before cmp a b.
Proof. intros H. exists (Js.Fin 0). split; [exact H | reflexivity]. Qed.

(** On a list of devices that carry their numeric fields (in the script:
    and none of them zero) the comparator is the difference of the values
    or the collation of the names; there the sort returns a rearrangement
    of the list in which two devices that the comparator reports as equal
    stand in the same relative order as in the input. *)
Lemma complete_rows_sort_stably (s : SortSpec) (clients : list ClientTraffic) :
  (Forall typed clients ->
   exists out,
     sortedClients localeCompare s clients = Js.Normal out
     /\ Permutation clients out
     /\ forall a b,
         compareReact localeCompare s a b = Js.Normal (Js.Fin 0) ->
         Before a b clients -> Before a b out)
  /\ (Forall nonzero clients ->
      exists out,
        sortedVanilla localeCompare s clients = Js.Normal out
        /\ Permutation clients out
        /\ forall a b,
            compareVanilla localeCompare s a b = Js.Normal (Js.Fin 0) ->
            Before a b clients -> Before a b out).
Proof.
  split; intros Ht.
  - destruct (@sort_returns _ (compareReact localeCompare s) clients)
      as [out Hout].
    { intros x y Hx _. apply compareReact_returns.
      rewrite Forall_forall in Ht. apply Ht, Hx. }
    exists out. split; [exact Hout|]. split.
    + eapply sort_Permutation, Hout.
    + intros a b Htie Hab.
      eapply sort_stable; [exact Hout | exact Hab |].
      apply tie_keeps_before, Htie.
  - destruct (@sort_returns _ (compareVanilla localeCompare s) clients)
      as [out Hout].
    { intros x y Hx _. apply compareVanilla_returns.
      rewrite Forall_forall in Ht. apply Ht, Hx. }
    exists out. split; [exact Hout|]. split.
    + eapply sort_Permutation, Hout.
    + intros a b Htie Hab.
      eapply sort_stable; [exact Hout | exact Hab |].
      apply tie_keeps_before, Htie.
Qed.

(** C4 fails in the script, on a list with an idle device.  Under the
    initial sort (download rate, descending) the script's comparator, given
    a device of rate 0 first and a device of a positive rate second, throws
    a TypeError: [0 || ''] is the empty string, the string branch is taken
    and [localeCompare] is called on the other rate, a number.  So the sort
    of the list "busy", "idle" aborts when the engine passes the row it is
    placing first, and the sort of "idle", "busy" aborts when it passes the
    earlier row first: there is no sorted output.  The React comparator
    keeps the 0 and sorts both lists to "busy", "idle"; and the script
    does leave "b" before "a" when both have the rate 1.  A rate that is
    absent does to the React comparator what 0 does to the script's: the
    devices "z" (rate 0) and "m" (no rate) are reported as equal when "z"
    is passed first, yet "m", passed first, is moved in front of "z". *)
Theorem idle_device_aborts_script_sort :
  (forall (p : positive) (i b : string),
      compareVanilla localeCompare initialSort (named i 0) (named b (Z.pos p))
      = Js.Throw Js.TypeError)
  /\ Js.sort_pivot_first (compareVanilla localeCompare initialSort)
                         [named "busy" 5; named "idle" 0]
     = Js.Throw Js.TypeError
  /\ sortedVanilla localeCompare initialSort [named "idle" 0; named "busy" 5]
     = Js.Throw Js.TypeError
  /\ Js.sort_pivot_first (compareReact localeCompare initialSort)
                         [named "busy" 5; named "idle" 0]
     = Js.Normal [named "busy" 5; named "idle" 0]
  /\ sortedClients localeCompare initialSort [named "idle" 0; named "busy" 5]
     = Js.Normal [named "busy" 5; named "idle" 0]
  /\ sortedVanilla localeCompare initialSort [named "b" 1; named "a" 1]
     = Js.Normal [named "b" 1; named "a" 1]
  /\ Js.sort_pivot_first (compareVanilla localeCompare initialSort)
                         [named "b" 1; named "a" 1]
     = Js.Normal [named "b" 1; named "a" 1]
  /\ compareReact Js.codeUnitCompare (mkSortSpec f_downloadSpeed asc)
                  (named "z" 0) (rateless "m")
     = Js.Normal (Js.Fin 0)
  /\ Js.sort_pivot_first
       (compareReact Js.codeUnitCompare (mkSortSpec f_downloadSpeed asc))
       [named "z" 0; rateless "m"]
     = Js.Normal [rateless "m"; named "z" 0].
Proof. repeat split; reflexivity. Qed.

End DeviceTable.

(** ** The display-name key *)

Section NameKey.
Import Client SortEngine.

Lemma lowerChar_idempotent (c : ascii) :
  Js.lowerChar (Js.lowerChar c) = Js.lowerChar c.
Proof. destruct c as [[] [] [] [] [] [] [] []]; reflexivity. Qed.

Lemma lowerChar_dot (c : ascii) :
  Ascii.eqb (Js.lowerChar c) "." = Ascii.eqb c ".".
Proof. destruct c as [[] [] [] [] [] [] [] []]; reflexivity. Qed.

Lemma toLowerCase_idempotent (s : string) :
  Js.toLowerCase (Js.toLowerCase s) = Js.toLowerCase s.
Proof.
  induction s as [|c r IH]; simpl; [reflexivity|].
  rewrite lowerChar_idempotent, IH. reflexivity.
Qed.

Lemma split_dot_head_toLowerCase (s : string) :
  Js.toLowerCase (Js.split_dot_head s) = Js.split_dot_head (Js.toLowerCase s).
Proof.
  induction s as [|c r IH]; simpl; [reflexivity|].
  rewrite lowerChar_dot. destruct (Ascii.eqb c "."); simpl; [reflexivity|].
  rewrite IH. reflexivity.
Qed.

Lemma orderKey_nonempty (c : ascii) (r : string) :
  orderKey (Some (String c r)) = Js.split_dot_head (Js.toLowerCase (String c r)).
Proof.
  unfold orderKey, Formatters.shortHostname.
  cbn [String.eqb]. apply split_dot_head_toLowerCase.
Qed.

Lemma split_dot_head_suffix (h d : string) :
  Js.split_dot_head h = h ->
  Js.split_dot_head (String.append h (String "." d)) = h.
Proof.
  induction h as [|c r IH]; simpl; [reflexivity|].
  destruct (Ascii.eqb c "."); [discriminate|].
  intros H. injection H as H. rewrite IH; auto.
Qed.

(** C9, as the code has it.  Under the display-name field both
    comparators apply the collation, in the sense of the direction, to
    the order keys of the two hostnames.  The key of a non-empty hostname
    is its text before the first dot, in lower case (it is not trimmed);
    hence hostnames that differ only in letter case have the same key,
    and a hostname without a dot keeps its key when a domain suffix is
    appended.  "Router.local" and "router" both have the key "router". *)
Theorem name_key_folds_case_and_strips_domain
        (localeCompare : string -> string -> Z) :
  (forall dir a b,
      compareReact localeCompare (mkSortSpec f_hostname dir) a b
      = Js.Normal (Js.Fin (directed localeCompare dir
                                    (orderKey (hostname a)) (orderKey (hostname b))))
      /\ compareVanilla localeCompare (mkSortSpec f_hostname dir) a b
         = Js.Normal (Js.Fin (directed localeCompare dir
                                       (orderKey (hostname a)) (orderKey (hostname b)))))
  /\ (forall c r,
        orderKey (Some (String c r))
        = Js.toLowerCase (Js.split_dot_head (String c r)))
  /\ (forall h1 h2,
        Js.toLowerCase h1 = Js.toLowerCase h2 ->
        orderKey (Some h1) = orderKey (Some h2))
  /\ (forall c r d,
        Js.split_dot_head (String c r) = String c r ->
        orderKey (Some (String.append (String c r) (String "." d)))
        = orderKey (Some (String c r)))
  /\ orderKey (Some "Router.local"%string) = "router"%string
  /\ orderKey (Some "router"%string) = "router"%string.
Proof.
  split; [|split; [|split; [|split; [|split]]]].
  - intros dir a b. apply compare_hostname_by_key.
  - intros c r. reflexivity.
  - intros h1 h2 H.
    destruct h1 as [|c1 r1], h2 as [|c2 r2]; try discriminate; [reflexivity|].
    rewrite !orderKey_nonempty, H. reflexivity.
  - intros c r d H.
    change (String.append (String c r) (String "." d))
      with (String c (String.append r (String "." d))).
    rewrite !orderKey_nonempty.
    rewrite <- !split_dot_head_toLowerCase. f_equal.
    change (String c (String.append r (String "." d)))
      with (String.append (String c r) (String "." d)).
    rewrite split_dot_head_suffix by exact H. symmetry. exact H.
  - reflexivity.
  - reflexivity.
Qed.

Lemma name_key_folds_case_and_strips_domain_witness :
  orderKey (Some "ROUTER.Local"%string) = orderKey (Some "router.local"%string)
  /\ orderKey (Some (String.append "nas" (String "." "lan")))
     = orderKey (Some "nas"%string).
Proof.
  pose proof (name_key_folds_case_and_strips_domain Js.codeUnitCompare)
    as (_ & _ & Hcase & Hsuffix & _).
  split.
  - apply Hcase. reflexivity.
  - apply (Hsuffix "n"%char "as"%string "lan"%string). reflexivity.
Defined.

(** C9 fails where it says "trimmed": a leading blank is kept in the key,
    so " router" and "router", equal in the specification's normal form,
    are not reported as equal by either comparator. *)
Lemma name_key_is_not_trimmed :
  normalizedKey " router" = normalizedKey "router"
  /\ compareReact Js.codeUnitCompare (mkSortSpec f_hostname asc)
                  (named " router" 1) (named "router" 1)
     <> Js.Normal (Js.Fin (Js.codeUnitCompare (normalizedKey " router")
                                              (normalizedKey "router")))
  /\ compareVanilla Js.codeUnitCompare (mkSortSpec f_hostname asc)
                    (named " router" 1) (named "router" 1)
     <> Js.Normal (Js.Fin (Js.codeUnitCompare (normalizedKey " router")
                                              (normalizedKey "router"))).
Proof. repeat split; vm_compute; discriminate. Qed.

End NameKey.


(** ** Devices with a missing value *)

Section MissingValues.
Import Client SortEngine.

Lemma unnamed_key (c : ClientTraffic) :
  unnamed c -> orderKey (hostname c) = "unknown"%string.
Proof. intros [-> | ->]; reflexivity. Qed.

Lemma hostname_sort_returns (localeCompare : string -> string -> Z)
      (dir : SortDirection) (clients : list ClientTraffic) :
  (exists out, sortedClients localeCompare (mkSortSpec f_hostname dir) clients
               = Js.Normal out /\ Permutation clients out)
  /\ (exists out, sortedVanilla localeCompare (mkSortSpec f_hostname dir) clients
                  = Js.Normal out /\ Permutation clients out).
Proof.
  split.
  - destruct (@sort_returns _ (compareReact localeCompare (mkSortSpec f_hostname dir))
                            clients) as [out Hout].
    { intros x y _ _.
      destruct (compare_hostname_by_key localeCompare dir x y) as [-> _]. eauto. }
    exists out. split; [exact Hout|]. eapply sort_Permutation, Hout.
  - destruct (@sort_returns _ (compareVanilla localeCompare (mkSortSpec f_hostname dir))
                            clients) as [out Hout].
    { intros x y _ _.
      destruct (compare_hostname_by_key localeCompare dir x y) as [_ ->]. eauto. }
    exists out. split; [exact Hout|]. eapply sort_Permutation, Hout.
Qed.

(** C5, as the code has it by design.  Under the display-name field a
    device whose hostname is missing or empty is compared by the key
    "unknown", the lower-cased placeholder of shortHostname, on
    whichever side of the comparison it stands; the sort by display name
    always returns, and its output is a rearrangement of the input, so
    such a device is never left out. *)
Theorem missing_name_sorts_as_unknown
        (localeCompare : string -> string -> Z) (dir : SortDirection) :
  (forall a b,
      unnamed a ->
      compareReact localeCompare (mkSortSpec f_hostname dir) a b
      = Js.Normal (Js.Fin (directed localeCompare dir
                                    "unknown" (orderKey (hostname b))))
      /\ compareVanilla localeCompare (mkSortSpec f_hostname dir) a b
         = Js.Normal (Js.Fin (directed localeCompare dir
                                       "unknown" (orderKey (hostname b)))))
  /\ (forall a b,
        unnamed b ->
        compareReact localeCompare (mkSortSpec f_hostname dir) a b
        = Js.Normal (Js.Fin (directed localeCompare dir
                                      (orderKey (hostname a)) "unknown"))
        /\ compareVanilla localeCompare (mkSortSpec f_hostname dir) a b
           = Js.Normal (Js.Fin (directed localeCompare dir
                                         (orderKey (hostname a)) "unknown")))
  /\ (forall clients,
        (exists out,
            sortedClients localeCompare (mkSortSpec f_hostname dir) clients
            = Js.Normal out /\ Permutation clients out)
        /\ (exists out,
               sortedVanilla localeCompare (mkSortSpec f_hostname dir) clients
               = Js.Normal out /\ Permutation clients out)).
Proof.
  split; [|split].
  - intros a b Ha. rewrite <- (unnamed_key Ha). apply compare_hostname_by_key.
  - intros a b Hb. rewrite <- (unnamed_key Hb). apply compare_hostname_by_key.
  - intros clients. apply hostname_sort_returns.
Qed.

Lemma missing_name_sorts_as_unknown_witness :
  compareReact Js.codeUnitCompare (mkSortSpec f_hostname asc)
               (anonymous 1) (named "alpha" 1)
  = Js.Normal (Js.Fin (directed Js.codeUnitCompare asc "unknown"
                                (orderKey (hostname (named "alpha" 1))))).
Proof.
  apply (proj1 (missing_name_sorts_as_unknown Js.codeUnitCompare asc)
               (anonymous 1) (named "alpha" 1)).
  left. reflexivity.
Defined.

(** C5 fails for the display name: the device without a hostname is not
    compared as the empty string (which would put it before "alpha") but
    as "unknown", and lands between "alpha" and "zeta". *)
Lemma missing_name_is_not_empty_string :
  compareReact Js.codeUnitCompare (mkSortSpec f_hostname asc)
               (anonymous 1) (named "alpha" 1)
  <> Js.Normal (Js.Fin (Js.codeUnitCompare "" (orderKey (Some "alpha"%string))))
  /\ compareVanilla Js.codeUnitCompare (mkSortSpec f_hostname asc)
                    (anonymous 1) (named "alpha" 1)
     <> Js.Normal (Js.Fin (Js.codeUnitCompare "" (orderKey (Some "alpha"%string))))
  /\ sortedClients Js.codeUnitCompare (mkSortSpec f_hostname asc)
                   [named "zeta" 1; anonymous 1; named "alpha" 1]
     = Js.Normal [named "alpha" 1; anonymous 1; named "zeta" 1]
  /\ sortedVanilla Js.codeUnitCompare (mkSortSpec f_hostname asc)
                   [named "zeta" 1; anonymous 1; named "alpha" 1]
     = Js.Normal [named "alpha" 1; anonymous 1; named "zeta" 1].
Proof. repeat split; vm_compute; try discriminate; reflexivity. Qed.

(** The numeric fields.  A missing value that is the second operand
    counts as zero; a missing value that is the first operand becomes the
    empty string and takes the string branch, where the descending
    comparison calls localeCompare on a number and throws.  The script's
    [|| ''] sends the value 0 the same way.  Which device of a pair is the
    first operand is the engine's choice: the sort aborts on the list in
    which the device without a value stands first when the engine passes
    the earlier row first, and on the list in which it stands last when
    the engine passes the row it is placing first. *)
Lemma missing_number_second_operand_is_zero
      (localeCompare : string -> string -> Z) (n : Z) :
  compareReact localeCompare (mkSortSpec f_downloadSpeed asc)
               (named "a" n) (rateless "b")
  = Js.Normal (Js.Fin (n - 0))
  /\ compareReact localeCompare (mkSortSpec f_downloadSpeed desc)
                  (named "a" n) (rateless "b")
     = Js.Normal (Js.Fin (0 - n)).
Proof. split; reflexivity. Qed.

Lemma missing_number_first_operand_throws
      (localeCompare : string -> string -> Z) :
  compareReact localeCompare (mkSortSpec f_downloadSpeed desc)
               (rateless "b") (named "a" 5)
  = Js.Throw Js.TypeError
  /\ compareVanilla localeCompare (mkSortSpec f_downloadSpeed desc)
                    (named "idle" 0) (named "busy" 5)
     = Js.Throw Js.TypeError.
Proof. split; reflexivity. Qed.

Lemma missing_number_aborts_sort (localeCompare : string -> string -> Z) :
  Js.sort (compareReact localeCompare (mkSortSpec f_downloadSpeed desc))
          [rateless "b"; named "a" 5]
  = Js.Throw Js.TypeError
  /\ Js.sort_pivot_first
       (compareReact localeCompare (mkSortSpec f_downloadSpeed desc))
       [named "a" 5; rateless "b"]
     = Js.Throw Js.TypeError.
Proof. split; reflexivity. Qed.

End MissingValues.



(** ** formatDuration and shortHostname *)

Section FormattingFacts.
Import Formatting.

Lemma rem_nonneg (a b : Z) : (0 <= a)%Z -> (0 < b)%Z -> Z.rem a b = (a mod b)%Z.
Proof. intros Ha Hb. apply Z.rem_mod_nonneg; lia. Qed.

Lemma duration_decomposition (seconds : Z) :
  (0 <= seconds)%Z ->
  (0 <= days seconds)%Z
  /\ (0 <= hours seconds < 24)%Z
  /\ (0 <= minutes seconds < 60)%Z
  /\ (0 <= seconds - (days seconds * 86400 + hours seconds * 3600
                      + minutes seconds * 60) < 60)%Z.
Proof.
  intros H. unfold days, hours, minutes.
  rewrite !rem_nonneg by lia.
  Z.to_euclidean_division_equations. lia.
Qed.

(** X1. For a non-negative whole number of seconds the three components
    are a mixed-radix reading of it: hours below 24, minutes below 60, and
    days, hours and minutes together fall short of the input by less than
    a minute. *)
Theorem formatDuration_components (seconds : Z) :
  (0 <= seconds)%Z ->
  (0 <= days seconds)%Z
  /\ (0 <= hours seconds < 24)%Z
  /\ (0 <= minutes seconds < 60)%Z
  /\ (0 <= seconds - (days seconds * 86400 + hours seconds * 3600
                      + minutes seconds * 60) < 60)%Z.
Proof. apply duration_decomposition. Qed.

Lemma formatDuration_components_witness :
  (0 <= hours 93784 < 24)%Z.
Proof.
  apply (@formatDuration_components 93784%Z). lia.
Defined.

Lemma ToString_positive_starts_with_digit (n : Z) :
  (0 < n)%Z ->
  exists c r, Js.ToString (Js.VNumber (Js.Fin n)) = String c r
              /\ is_digit c = true.
Proof.
  intros Hn. destruct n as [|p|p]; try lia. simpl.
  pose proof (DecimalPos.Unsigned.to_uint_nonnil p) as Hnil.
  unfold Z.to_int. unfold NilZero.string_of_int, NilZero.string_of_uint.
  destruct (Pos.to_uint p); try congruence; simpl; eauto.
Qed.

Lemma suffixed_first_char (n : Z) (unit : string) :
  (0 < n)%Z ->
  exists c, first_char (suffixed n unit) = Some c /\ is_digit c = true.
Proof.
  intros Hn. unfold suffixed.
  destruct (ToString_positive_starts_with_digit Hn) as (c & r & -> & Hc).
  exists c. split; [reflexivity | exact Hc].
Qed.

Lemma join_first_char (sep x : string) (rest : list string) (c : ascii) :
  first_char x = Some c -> first_char (join sep (x :: rest)) = Some c.
Proof.
  destruct x as [|c0 x0]; [discriminate|]. simpl. intros H.
  destruct rest; simpl; exact H.
Qed.

Lemma parts_first_char (seconds : Z) (x : string) (rest : list string) :
  parts seconds = x :: rest ->
  exists c, first_char x = Some c /\ is_digit c = true.
Proof.
  unfold parts.
  destruct (Z.ltb_spec 0 (days seconds)) as [Hd|Hd]; simpl.
  - intros H. injection H as <- _. apply suffixed_first_char, Hd.
  - destruct (Z.ltb_spec 0 (hours seconds)) as [Hh|Hh]; simpl.
    + intros H. injection H as <- _. apply suffixed_first_char, Hh.
    + destruct (Z.ltb_spec 0 (minutes seconds)) as [Hm|Hm]; simpl.
      * intros H. injection H as <- _. apply suffixed_first_char, Hm.
      * discriminate.
Qed.

Lemma parts_empty_iff (seconds : Z) : parts seconds = [] <-> (seconds < 60)%Z.
Proof.
  unfold parts. split.
  - intros H.
    destruct (Z.ltb_spec 0 (days seconds)) as [Hd|Hd]; [discriminate|].
    destruct (Z.ltb_spec 0 (hours seconds)) as [Hh|Hh]; [discriminate|].
    destruct (Z.ltb_spec 0 (minutes seconds)) as [Hm|Hm]; [discriminate|].
    destruct (Z.lt_ge_cases seconds 0) as [Hneg|Hpos]; [lia|].
    pose proof (duration_decomposition Hpos) as Hc.
    lia.
  - intros H.
    assert (Hd : (days seconds <= 0)%Z).
    { unfold days. destruct (Z.lt_ge_cases seconds 0).
      - assert (seconds / 86400 < 0)%Z by (apply Z.div_lt_upper_bound; lia). lia.
      - rewrite Z.div_small by lia. lia. }
    assert (Hh : (hours seconds <= 0)%Z).
    { unfold hours. destruct (Z.lt_ge_cases seconds 0).
      - pose proof (Z.rem_nonpos seconds 86400 ltac:(lia) ltac:(lia)).
        assert (Z.rem seconds 86400 / 3600 <= 0)%Z
          by (apply Z.div_le_upper_bound; lia). lia.
      - rewrite rem_nonneg by lia. rewrite (Z.mod_small seconds) by lia.
        rewrite Z.div_small by lia. lia. }
    assert (Hm : (minutes seconds <= 0)%Z).
    { unfold minutes. destruct (Z.lt_ge_cases seconds 0).
      - pose proof (Z.rem_nonpos seconds 3600 ltac:(lia) ltac:(lia)).
        assert (Z.rem seconds 3600 / 60 <= 0)%Z
          by (apply Z.div_le_upper_bound; lia). lia.
      - rewrite rem_nonneg by lia. rewrite (Z.mod_small seconds) by lia.
        rewrite Z.div_small by lia. lia. }
    apply Z.ltb_ge in Hd, Hh, Hm. rewrite Hd, Hh, Hm. reflexivity.
Qed.

End FormattingFacts.

Section DurationDisplay.
Import Formatting.

(** X2. formatDuration answers "< 1m" exactly for the inputs below one
    minute, negative ones included; from 60 seconds on the text begins
    with a digit. *)
Theorem formatDuration_under_a_minute (seconds : Z) :
  (formatDuration seconds = "< 1m"%string <-> (seconds < 60)%Z)
  /\ ((60 <= seconds)%Z ->
      exists c, first_char (formatDuration seconds) = Some c
                /\ is_digit c = true).
Proof.
  assert (Hdigit : (60 <= seconds)%Z ->
                   exists c, first_char (formatDuration seconds) = Some c
                             /\ is_digit c = true).
  { intros Hge. unfold formatDuration.
    destruct (parts seconds) as [|x rest] eqn:Hp.
    - apply parts_empty_iff in Hp. lia.
    - destruct (parts_first_char _ Hp) as (c & Hc & Hd).
      exists c. split; [|exact Hd]. apply join_first_char, Hc. }
  split; [split|exact Hdigit].
  - intros H. destruct (Z.lt_ge_cases seconds 60) as [Hlt|Hge]; [exact Hlt|].
    destruct (Hdigit Hge) as (c & Hc & Hd).
    rewrite H in Hc. simpl in Hc. injection Hc as <-. discriminate.
  - intros H. apply parts_empty_iff in H. unfold formatDuration.
    rewrite H. reflexivity.
Qed.

Lemma formatDuration_under_a_minute_witness :
  exists c, first_char (formatDuration 93784) = Some c /\ is_digit c = true.
Proof.
  apply (proj2 (formatDuration_under_a_minute 93784)). lia.
Defined.

Lemma split_dot_head_dotless (s : string) : has_dot (Js.split_dot_head s) = false.
Proof.
  induction s as [|c r IH]; simpl; [reflexivity|].
  destruct (Ascii.eqb c ".") eqn:E; simpl; [reflexivity|].
  rewrite E, IH. reflexivity.
Qed.

Lemma split_dot_head_prefix (s : string) :
  String.prefix (Js.split_dot_head s) s = true.
Proof.
  induction s as [|c r IH]; simpl; [reflexivity|].
  destruct (Ascii.eqb c "."); simpl; [reflexivity|].
  destruct (ascii_dec c c); [exact IH | congruence].
Qed.

(** X3. The short hostname never contains a dot, and for a non-empty
    hostname it is a prefix of it.  It is empty exactly when the hostname
    begins with a dot: then the table shows no name and no avatar letter. *)
Theorem shortHostname_is_dotless_prefix (hostname : option string) :
  has_dot (Formatters.shortHostname hostname) = false
  /\ (forall h, hostname = Some h -> h <> ""%string ->
                String.prefix (Formatters.shortHostname hostname) h = true)
  /\ (Formatters.shortHostname hostname = ""%string <->
      exists r, hostname = Some (String "." r)).
Proof.
  split; [|split].
  - destruct hostname as [[|c r]|]; try reflexivity.
    unfold Formatters.shortHostname. cbn [String.eqb].
    apply split_dot_head_dotless.
  - intros h -> Hne. destruct h as [|c r]; [congruence|].
    unfold Formatters.shortHostname. cbn [String.eqb].
    apply split_dot_head_prefix.
  - split.
    + destruct hostname as [[|c r]|]; try discriminate.
      unfold Formatters.shortHostname. cbn [String.eqb]. simpl.
      destruct (Ascii.eqb_spec c "."); [subst; eauto | discriminate].
    + intros [r ->]. reflexivity.
Qed.

Lemma shortHostname_is_dotless_prefix_witness :
  String.prefix (Formatters.shortHostname (Some "nas.lan"%string)) "nas.lan" = true.
Proof.
  apply (proj1 (proj2 (shortHostname_is_dotless_prefix (Some "nas.lan"%string)))).
  - reflexivity.
  - discriminate.
Defined.

End DurationDisplay.


(** ** The order of the sorted table *)

Section SortedOutput.
Variable A : Type.
Variable comparefn : A -> A -> Js.completion Js.number.
Variable key : A -> Z.

Lemma StronglySorted_weaken (R R' : A -> A -> Prop) (l : list A) :
  (forall a b, R a b -> R' a b) -> StronglySorted R l -> StronglySorted R' l.
Proof.
  intros HR. induction 1 as [|a l Hs IH Ha]; constructor; auto.
  eapply Forall_impl; [|exact Ha]. auto.
Qed.

Lemma insert_sorted_by_key (x : A) (sorted r : list A) :
  (forall y, In y sorted -> comparefn x y = Js.Normal (Js.Fin (key x - key y))) ->
  StronglySorted (fun a b => (key a <= key b)%Z) sorted ->
  Js.insert comparefn x sorted = Js.Normal r ->
  StronglySorted (fun a b => (key a <= key b)%Z) r.
Proof.
  revert r. induction sorted as [|y rest IH]; intros r Hc Hs H; simpl in H.
  - injection H as <-. repeat constructor.
  - rewrite (Hc y (or_introl eq_refl)) in H. simpl in H.
    inversion Hs as [|? ? Hrest Hy]; subst.
    destruct (Z.ltb_spec 0 (key x - key y)) as [Hpos|Hle].
    + destruct (Js.insert comparefn x rest) as [r'|e] eqn:Hi; simpl in H;
        [|discriminate].
      injection H as <-. constructor.
      * apply IH; auto. intros z Hz. apply Hc. right. exact Hz.
      * eapply Permutation_Forall;
          [apply (@insert_Permutation _ comparefn _ _ _ Hi)|].
        constructor; [lia | exact Hy].
    + injection H as <-. constructor; [exact Hs|].
      constructor; [lia|].
      eapply Forall_impl; [|exact Hy]. simpl. intros; lia.
Qed.

Lemma sort_sorted_by_key (l : list A) :
  (forall x y, In x l -> In y l ->
               comparefn x y = Js.Normal (Js.Fin (key x - key y))) ->
  exists r, Js.sort comparefn l = Js.Normal r
            /\ Permutation l r
            /\ StronglySorted (fun a b => (key a <= key b)%Z) r.
Proof.
  induction l as [|x rest IH]; intros Hc; simpl.
  - exists []. repeat split; constructor.
  - destruct IH as (s & Hs & Hperm & Hsorted).
    { intros a b Ha Hb. apply Hc; right; assumption. }
    rewrite Hs. simpl.
    destruct (@insert_returns _ comparefn x s) as [r Hr].
    { intros y Hy. eexists. apply Hc; [left; reflexivity|right].
      eapply Permutation_in; [apply Permutation_sym, Hperm | exact Hy]. }
    exists r. split; [exact Hr|]. split.
    + eapply perm_trans; [apply perm_skip, Hperm|].
      apply (@insert_Permutation _ comparefn _ _ _ Hr).
    + eapply insert_sorted_by_key; [|exact Hsorted|exact Hr].
      intros y Hy. apply Hc; [left; reflexivity|right].
      eapply Permutation_in; [apply Permutation_sym, Hperm | exact Hy].
Qed.

End SortedOutput.

Section TableOrder.
Import Client SortEngine.
Variable localeCompare : string -> string -> Z.

(** The key whose ascending order is the order a direction asks for. *)
Lemma inOrder_key (dir : SortDirection) (x y : Z) :
  inOrder dir x y <->
  ((match dir with asc => x | desc => - x end
    <= match dir with asc => y | desc => - y end)%Z).
Proof. destruct dir; simpl; lia. Qed.

Lemma compareReact_numeric (f : SortField) (dir : SortDirection)
      (a b : ClientTraffic) :
  isNumeric f = true -> typed a -> typed b ->
  compareReact localeCompare (mkSortSpec f dir) a b
  = Js.Normal (Js.Fin (match dir with
                       | asc => fieldValue f a - fieldValue f b
                       | desc => fieldValue f b - fieldValue f a
                       end)).
Proof.
  intros Hf (Ha1 & Ha2 & Ha3 & Ha4) (Hb1 & Hb2 & Hb3 & Hb4).
  unfold compareReact, compareValues, fieldValue.
  destruct f; try discriminate; simpl;
    [ destruct (download a), (download b)
    | destruct (upload a), (upload b)
    | destruct (downloadSpeed a), (downloadSpeed b)
    | destruct (uploadSpeed a), (uploadSpeed b) ];
    try congruence; destruct dir; reflexivity.
Qed.

Lemma nonzero_typed (c : ClientTraffic) : nonzero c -> typed c.
Proof.
  intros ((? & H1 & _) & (? & H2 & _) & (? & H3 & _) & (? & H4 & _)).
  unfold typed. rewrite H1, H2, H3, H4. repeat split; discriminate.
Qed.

Lemma compareVanilla_numeric (f : SortField) (dir : SortDirection)
      (a b : ClientTraffic) :
  isNumeric f = true -> nonzero a -> nonzero b ->
  compareVanilla localeCompare (mkSortSpec f dir) a b
  = Js.Normal (Js.Fin (match dir with
                       | asc => fieldValue f a - fieldValue f b
                       | desc => fieldValue f b - fieldValue f a
                       end)).
Proof.
  intros Hf ((a1 & Ha1 & Za1) & (a2 & Ha2 & Za2) & (a3 & Ha3 & Za3) & (a4 & Ha4 & Za4))
         ((b1 & Hb1 & Zb1) & (b2 & Hb2 & Zb2) & (b3 & Hb3 & Zb3) & (b4 & Hb4 & Zb4)).
  apply Z.eqb_neq in Za1, Za2, Za3, Za4, Zb1, Zb2, Zb3, Zb4.
  unfold compareVanilla, compareValues, fieldValue, Js.logical_or.
  destruct f; try discriminate; simpl;
    rewrite ?Ha1, ?Ha2, ?Ha3, ?Ha4, ?Hb1, ?Hb2, ?Hb3, ?Hb4; simpl;
    rewrite ?Za1, ?Za2, ?Za3, ?Za4, ?Zb1, ?Zb2, ?Zb3, ?Zb4; simpl;
    destruct dir; reflexivity.
Qed.

(** X4. Sorting by a numeric column puts the values in order: on devices
    that carry their numeric fields the React sort returns a rearrangement
    of the list in which the values of the sorted field never decrease
    (ascending) or never increase (descending) from one row to any later
    row; the script's sort does the same when no numeric field is zero. *)
Theorem numeric_sort_orders_values (f : SortField) (dir : SortDirection)
        (clients : list ClientTraffic) :
  isNumeric f = true ->
  (Forall typed clients ->
   exists out,
     sortedClients localeCompare (mkSortSpec f dir) clients = Js.Normal out
     /\ Permutation clients out
     /\ StronglySorted (fun a b => inOrder dir (fieldValue f a) (fieldValue f b)) out)
  /\ (Forall nonzero clients ->
      exists out,
        sortedVanilla localeCompare (mkSortSpec f dir) clients = Js.Normal out
        /\ Permutation clients out
        /\ StronglySorted (fun a b => inOrder dir (fieldValue f a) (fieldValue f b)) out).
Proof.
  intros Hf. split; intros Hall; rewrite Forall_forall in Hall.
  - destruct (@sort_sorted_by_key _
                (compareReact localeCompare (mkSortSpec f dir))
                (fun c => match dir with
                          | asc => fieldValue f c
                          | desc => (- fieldValue f c)%Z
                          end) clients) as (out & Hout & Hperm & Hsorted).
    { intros x y Hx Hy. rewrite compareReact_numeric by auto.
      destruct dir; do 2 f_equal; lia. }
    exists out. repeat split; auto.
    eapply StronglySorted_weaken; [|exact Hsorted].
    intros a b Hab. apply inOrder_key. exact Hab.
  - destruct (@sort_sorted_by_key _
                (compareVanilla localeCompare (mkSortSpec f dir))
                (fun c => match dir with
                          | asc => fieldValue f c
                          | desc => (- fieldValue f c)%Z
                          end) clients) as (out & Hout & Hperm & Hsorted).
    { intros x y Hx Hy. rewrite compareVanilla_numeric by auto.
      destruct dir; do 2 f_equal; lia. }
    exists out. repeat split; auto.
    eapply StronglySorted_weaken; [|exact Hsorted].
    intros a b Hab. apply inOrder_key. exact Hab.
Qed.

(** X5. The direction only swaps the operands: on devices that carry
    their numeric fields, comparing [a] with [b] in descending order gives
    what comparing [b] with [a] gives in ascending order, for every field
    (in the script, when besides no numeric field is zero). *)
Theorem descending_swaps_operands (f : SortField) (a b : ClientTraffic) :
  (typed a -> typed b ->
   compareReact localeCompare (mkSortSpec f desc) a b
   = compareReact localeCompare (mkSortSpec f asc) b a)
  /\ (nonzero a -> nonzero b ->
      compareVanilla localeCompare (mkSortSpec f desc) a b
      = compareVanilla localeCompare (mkSortSpec f asc) b a).
Proof.
  split.
  - intros Ha Hb. destruct (isNumeric f) eqn:Hf.
    + rewrite !compareReact_numeric by auto. reflexivity.
    + destruct f; try discriminate.
      * destruct (compare_hostname_by_key localeCompare desc a b) as [-> _].
        destruct (compare_hostname_by_key localeCompare asc b a) as [-> _].
        reflexivity.
      * unfold compareReact, compareValues. simpl.
        destruct (ip a), (ip b); reflexivity.
  - intros Ha Hb. destruct (isNumeric f) eqn:Hf.
    + rewrite !compareVanilla_numeric by auto. reflexivity.
    + destruct f; try discriminate.
      * destruct (compare_hostname_by_key localeCompare desc a b) as [_ ->].
        destruct (compare_hostname_by_key localeCompare asc b a) as [_ ->].
        reflexivity.
      * unfold compareVanilla, compareValues. simpl.
        destruct (ip a) as [[|? ?]|], (ip b) as [[|? ?]|]; reflexivity.
Qed.

End TableOrder.

Lemma numeric_sort_orders_values_witness :
  exists out,
    SortEngine.sortedClients Js.codeUnitCompare
      (SortEngine.mkSortSpec SortEngine.f_uploadSpeed SortEngine.desc)
      [deviceA; deviceB] = Js.Normal out
    /\ Permutation [deviceA; deviceB] out
    /\ StronglySorted
         (fun a b => inOrder SortEngine.desc
                       (fieldValue SortEngine.f_uploadSpeed a)
                       (fieldValue SortEngine.f_uploadSpeed b)) out.
Proof.
  apply (proj1 (@numeric_sort_orders_values Js.codeUnitCompare
                  SortEngine.f_uploadSpeed SortEngine.desc
                  [deviceA; deviceB] eq_refl)).
  repeat constructor; discriminate.
Defined.

Lemma descending_swaps_operands_witness :
  SortEngine.compareReact Js.codeUnitCompare
    (SortEngine.mkSortSpec SortEngine.f_ip SortEngine.desc) deviceA deviceB
  = SortEngine.compareReact Js.codeUnitCompare
      (SortEngine.mkSortSpec SortEngine.f_ip SortEngine.asc) deviceB deviceA.
Proof.
  apply (proj1 (descending_swaps_operands Js.codeUnitCompare
                  SortEngine.f_ip deviceA deviceB));
    repeat split; discriminate.
Defined.

(** The end-to-end example of the specification: sorted by upload rate in
    descending order the two devices come out as B, A. *)
Lemma example_sorted_by_upload_rate :
  SortEngine.sortedClients Js.codeUnitCompare
    (SortEngine.mkSortSpec SortEngine.f_uploadSpeed SortEngine.desc)
    [deviceA; deviceB] = Js.Normal [deviceB; deviceA]
  /\ Stats.totalDownloadSpeed [deviceA; deviceB] = Js.Fin 1500
  /\ Stats.totalUploadSpeed [deviceA; deviceB] = Js.Fin 1100.
Proof. repeat split; reflexivity. Qed.


(** ** Sort actions in sequence *)

Section SortClicks.
Import SortEngine.

(** X6. After a sort action the clicked field is the active field.  Two
    actions in a row on the active field restore the sort state; two
    actions in a row on another field leave it active in ascending order.
    The header click handler of the script behaves the same. *)
Theorem sort_actions_compose (s : SortSpec) (field : SortField) :
  sortField (handleSort s field) = field
  /\ (field = sortField s -> handleSort (handleSort s field) field = s)
  /\ (field <> sortField s ->
      handleSort (handleSort s field) field
      = {| sortField := field; sortDirection := asc |})
  /\ onSortableClick (onSortableClick s field) field
     = handleSort (handleSort s field) field.
Proof.
  destruct s as [f d]. unfold handleSort, onSortableClick. simpl.
  destruct (SortField_eqb f field) eqn:E; simpl.
  - apply SortField_eqb_eq in E. subst field.
    rewrite (proj2 (SortField_eqb_eq f f) eq_refl). simpl.
    repeat split; try congruence. destruct d; reflexivity.
  - assert (Hne : field <> f).
    { intros ->. rewrite (proj2 (SortField_eqb_eq f f) eq_refl) in E. discriminate. }
    rewrite (proj2 (SortField_eqb_eq field field) eq_refl). simpl.
    repeat split; try reflexivity. congruence.
Qed.

Lemma sort_actions_compose_witness :
  handleSort (handleSort initialSort f_downloadSpeed) f_downloadSpeed = initialSort
  /\ handleSort (handleSort initialSort f_hostname) f_hostname
     = {| sortField := f_hostname; sortDirection := asc |}.
Proof.
  split.
  - apply (proj1 (proj2 (sort_actions_compose initialSort f_downloadSpeed))).
    reflexivity.
  - apply (proj1 (proj2 (proj2 (sort_actions_compose initialSort f_hostname)))).
    simpl. discriminate.
Defined.

End SortClicks.

(** ** Totals under reordering and under missing counters *)

Section TotalsFacts.
Import Client.

Lemma add_swap (a x y : Js.number) :
  Js.add (Js.add a x) y = Js.add (Js.add a y) x.
Proof. destruct a, x, y; simpl; try reflexivity. f_equal. lia. Qed.

Lemma fold_add_Permutation (g : ClientTraffic -> Js.number)
      (l l' : list ClientTraffic) :
  Permutation l l' ->
  forall a, fold_left (fun sum c => Js.add sum (g c)) l a
            = fold_left (fun sum c => Js.add sum (g c)) l' a.
Proof.
  induction 1 as [|x l l' _ IH|x y l|l l' l'' _ IH1 _ IH2]; intros a; simpl.
  - reflexivity.
  - apply IH.
  - rewrite add_swap. reflexivity.
  - rewrite IH1. apply IH2.
Qed.

Lemma combined_as_sum (clients : list ClientTraffic) (a : Js.number) :
  fold_left
    (fun sum c =>
       Js.add (Js.add sum (Js.ToNumber (Js.of_number (download c))))
              (Js.ToNumber (Js.of_number (upload c))))
    clients a
  = fold_left
      (fun sum c =>
         Js.add sum (Js.add (Js.ToNumber (Js.of_number (download c)))
                            (Js.ToNumber (Js.of_number (upload c)))))
      clients a.
Proof.
  revert a. induction clients as [|c l IH]; intros a; simpl; [reflexivity|].
  rewrite IH. f_equal.
  destruct a, (download c), (upload c); simpl; try reflexivity. f_equal. lia.
Qed.

Lemma totals_Permutation (l l' : list ClientTraffic) :
  Permutation l l' ->
  Stats.totalTraffic l = Stats.totalTraffic l'
  /\ Stats.totalDownloadSpeed l = Stats.totalDownloadSpeed l'
  /\ Stats.totalUploadSpeed l = Stats.totalUploadSpeed l'.
Proof.
  intros H. unfold Stats.totalTraffic, Stats.totalDownloadSpeed,
              Stats.totalUploadSpeed, Stats.reduce_sum.
  rewrite !combined_as_sum.
  rewrite (fold_add_Permutation
             (fun c => Js.ToNumber (Js.of_number (download c))) H).
  rewrite (fold_add_Permutation
             (fun c => Js.ToNumber (Js.of_number (upload c))) H).
  rewrite (fold_add_Permutation
             (fun c => Js.add (Js.ToNumber (Js.of_number (download c)))
                              (Js.ToNumber (Js.of_number (upload c)))) H).
  rewrite (fold_add_Permutation
             (fun c => Js.ToNumber (Js.of_number (downloadSpeed c))) H).
  rewrite (fold_add_Permutation
             (fun c => Js.ToNumber (Js.of_number (uploadSpeed c))) H).
  repeat split; reflexivity.
Qed.

(** X7. On whole-number counters and rates whose totals stay within 2^53
    (where the additions of the code are exact) the totals do not depend
    on the order of the devices: a rearrangement of the list, in particular
    the output of either table sort, has the same byte totals and the same
    speed totals (NaN, when a device lacks a value, included). *)
Theorem totals_ignore_row_order
        (localeCompare : string -> string -> Z) (s : SortEngine.SortSpec)
        (clients out : list ClientTraffic) :
  exact_in_doubles clients ->
  (Permutation clients out \/
   SortEngine.sortedClients localeCompare s clients = Js.Normal out \/
   SortEngine.sortedVanilla localeCompare s clients = Js.Normal out) ->
  Stats.totalTraffic out = Stats.totalTraffic clients
  /\ Stats.totalDownloadSpeed out = Stats.totalDownloadSpeed clients
  /\ Stats.totalUploadSpeed out = Stats.totalUploadSpeed clients.
Proof.
  intros _ H.
  assert (Hperm : Permutation clients out).
  { destruct H as [Hp|[Hs|Hs]]; [exact Hp| |];
      eapply sort_Permutation; exact Hs. }
  destruct (totals_Permutation Hperm) as (H1 & H2 & H3).
  repeat split; symmetry; assumption.
Qed.

Lemma totals_ignore_row_order_witness :
  exact_in_doubles [deviceA; deviceB]
  /\ Stats.totalTraffic [deviceB; deviceA] = Stats.totalTraffic [deviceA; deviceB].
Proof.
  assert (Hexact : exact_in_doubles [deviceA; deviceB]).
  { split; [|split; [|split]]; try (vm_compute; discriminate).
    repeat constructor; vm_compute; discriminate. }
  split; [exact Hexact|].
  apply (@totals_ignore_row_order Js.codeUnitCompare
           (SortEngine.mkSortSpec SortEngine.f_uploadSpeed SortEngine.desc)
           [deviceA; deviceB] [deviceB; deviceA] Hexact).
  right. left. reflexivity.
Defined.

Lemma fold_add_NaN (g : ClientTraffic -> Js.number) (l : list ClientTraffic) :
  fold_left (fun sum c => Js.add sum (g c)) l Js.NaN = Js.NaN.
Proof. induction l as [|c l IH]; simpl; auto. Qed.

Lemma fold_add_absorbs (g : ClientTraffic -> Js.number) (l : list ClientTraffic) :
  Exists (fun c => g c = Js.NaN) l ->
  forall a, fold_left (fun sum c => Js.add sum (g c)) l a = Js.NaN.
Proof.
  induction 1 as [c l Hc|c l _ IH]; intros a; simpl.
  - rewrite Hc. destruct a; simpl; apply fold_add_NaN.
  - apply IH.
Qed.

(** X8. One device without a counter spoils the total: if the object of
    some device has no downloaded (uploaded) byte count, the download
    (upload) total and the combined total are NaN; if it has no rate, the
    corresponding speed total is NaN. *)
Theorem missing_counter_makes_total_NaN (clients : list ClientTraffic) :
  (Exists (fun c => download c = None) clients ->
   Totals.download (Stats.totalTraffic clients) = Js.NaN
   /\ Totals.combined (Stats.totalTraffic clients) = Js.NaN)
  /\ (Exists (fun c => upload c = None) clients ->
      Totals.upload (Stats.totalTraffic clients) = Js.NaN
      /\ Totals.combined (Stats.totalTraffic clients) = Js.NaN)
  /\ (Exists (fun c => downloadSpeed c = None) clients ->
      Stats.totalDownloadSpeed clients = Js.NaN)
  /\ (Exists (fun c => uploadSpeed c = None) clients ->
      Stats.totalUploadSpeed clients = Js.NaN).
Proof.
  unfold Stats.totalTraffic, Stats.totalDownloadSpeed, Stats.totalUploadSpeed,
    Stats.reduce_sum. simpl.
  rewrite combined_as_sum.
  split; [|split; [|split]].
  - intros Hex. split; apply fold_add_absorbs;
      (eapply Exists_impl; [|exact Hex]); simpl; intros c Hc; rewrite Hc;
      reflexivity.
  - intros Hex. split; apply fold_add_absorbs;
      (eapply Exists_impl; [|exact Hex]); simpl; intros c Hc; rewrite Hc;
      simpl; try reflexivity.
    destruct (Js.ToNumber (Js.of_number (download c))); reflexivity.
  - intros Hex. apply fold_add_absorbs.
    eapply Exists_impl; [|exact Hex]. simpl. intros c Hc. rewrite Hc. reflexivity.
  - intros Hex. apply fold_add_absorbs.
    eapply Exists_impl; [|exact Hex]. simpl. intros c Hc. rewrite Hc. reflexivity.
Qed.

Lemma missing_counter_makes_total_NaN_witness :
  Stats.totalDownloadSpeed example_clients = Js.NaN.
Proof.
  apply (proj1 (proj2 (proj2 (missing_counter_makes_total_NaN example_clients)))).
  left. reflexivity.
Defined.

End TotalsFacts.


(** ** Where the chart draws *)

Section ChartGeometry.
Import History Chart.

Lemma scaled_share (v m h : Q) :
  0 <= v -> v <= m -> 0 < m -> 0 <= h ->
  0 <= (v / m) * h /\ (v / m) * h <= h.
Proof.
  intros Hv Hvm Hm Hh.
  assert (Ht : 0 <= v / m) by (apply Qle_shift_div_l; lra).
  assert (Ht1 : v / m <= 1) by (apply Qle_shift_div_r; lra).
  set (t := v / m) in *. split; nra.
Qed.

Lemma stepDivisor_positive (k : nat) :
  (0 < k)%nat -> (0 < stepDivisor k)%Z.
Proof.
  intros Hk. unfold stepDivisor. destruct (Z.eqb_spec (Z.of_nat k - 1) 0); lia.
Qed.

Lemma inject_Z_le (x y : Z) : (x <= y)%Z -> inject_Z x <= inject_Z y.
Proof. intros H. rewrite <- Zle_Qle. exact H. Qed.

Lemma inject_Z_lt (x y : Z) : (x < y)%Z -> inject_Z x < inject_Z y.
Proof. intros H. rewrite <- Zlt_Qlt. exact H. Qed.

Lemma forEach_i_Forall (P : DrawOp -> Prop) (f : Q -> nat -> list DrawOp)
      (data : list Q) :
  forall i0,
    (forall j v, nth_error data j = Some v -> Forall P (f v (i0 + j)%nat)) ->
    Forall P (forEach_i f data i0).
Proof.
  induction data as [|v rest IH]; intros i0 H; simpl; [constructor|].
  apply Forall_app. split.
  - specialize (H 0%nat v eq_refl). rewrite Nat.add_0_r in H. exact H.
  - apply IH. intros j w Hj. specialize (H (S j) w Hj).
    replace (S i0 + j)%nat with (i0 + S j)%nat by lia. exact H.
Qed.

Lemma forEach_i_In (f : Q -> nat -> list DrawOp) (op : DrawOp) (data : list Q) :
  forall i0 j v,
    nth_error data j = Some v -> In op (f v (i0 + j)%nat) ->
    In op (forEach_i f data i0).
Proof.
  induction data as [|w rest IH]; intros i0 j v Hj Hop.
  - destruct j; discriminate.
  - simpl. apply in_or_app. destruct j as [|j]; simpl in Hj.
    + injection Hj as ->. rewrite Nat.add_0_r in Hop. left. exact Hop.
    + right. apply (IH (S i0) j v Hj).
      replace (S i0 + j)%nat with (i0 + S j)%nat by lia. exact Hop.
Qed.

Section Frame.
Variable c : Canvas.
Variable history : list BandwidthSnapshot.
Hypothesis wide : (20 <= width c)%Z.
Hypothesis tall : (20 <= height c)%Z.
Hypothesis nonempty : (0 < length history)%nat.

Lemma chartWidth_nonneg : 0 <= chartWidth c.
Proof.
  unfold chartWidth. simpl.
  pose proof (inject_Z_le wide) as H. change (inject_Z 20) with 20 in H. lra.
Qed.

Lemma chartHeight_nonneg : 0 <= chartHeight c.
Proof.
  unfold chartHeight. simpl.
  pose proof (inject_Z_le tall) as H. change (inject_Z 20) with 20 in H. lra.
Qed.

Lemma stepX_nonneg : 0 <= stepX (chartWidth c) (length history).
Proof.
  unfold stepX. apply Qle_shift_div_l.
  - change 0 with (inject_Z 0). apply inject_Z_lt, stepDivisor_positive, nonempty.
  - pose proof chartWidth_nonneg. lra.
Qed.

Lemma pointX_right_of_left_line (i : nat) :
  left padding <= pointX c history i.
Proof.
  unfold pointX. pose proof stepX_nonneg as Hs.
  assert (Hi : 0 <= inject_Z (Z.of_nat i)).
  { change 0 with (inject_Z 0). apply inject_Z_le. lia. }
  set (t := stepX (chartWidth c) (length history)) in *.
  set (n := inject_Z (Z.of_nat i)) in *. nra.
Qed.

Lemma pointY_in_plot (v : Q) :
  0 <= v -> v <= maxValue history ->
  top padding <= pointY c history v
  /\ pointY c history v <= inject_Z (height c) - bottom padding.
Proof.
  intros Hv Hmax. unfold pointY.
  destruct (@scaled_share v (maxValue history) (chartHeight c)) as [H0 H1]; auto.
  - pose proof (maxValue_at_least_1 history). lra.
  - apply chartHeight_nonneg.
  - unfold chartHeight in *. simpl in *. split; lra.
Qed.

Lemma closing_point (data : list Q) :
  (0 < length data)%nat ->
  left padding <= left padding
                  + (inject_Z (Z.of_nat (length data)) - 1)
                    * stepX (chartWidth c) (length history).
Proof.
  intros Hpos. pose proof stepX_nonneg as Hs.
  assert (Hn : 1 <= inject_Z (Z.of_nat (length data))).
  { change 1 with (inject_Z 1). apply inject_Z_le. lia. }
  set (t := stepX (chartWidth c) (length history)) in *.
  set (n := inject_Z (Z.of_nat (length data))) in *. nra.
Qed.

Lemma drawArea_within_lines (data : list Q) (color fillColor : string) :
  (0 < length data)%nat ->
  Forall (fun v => 0 <= v /\ v <= maxValue history) data ->
  Forall (within_plot_lines c) (drawArea c history data color fillColor).
Proof.
  intros Hpos Hdata. unfold drawArea.
  assert (Hbase : top padding <= inject_Z (height c) - bottom padding).
  { pose proof (inject_Z_le tall) as Hh.
    change (inject_Z 20) with 20 in Hh. simpl. lra. }
  assert (Hpoint : forall j v, nth_error data j = Some v ->
                     within_plot_lines c
                       (lineTo (pointX c history j) (pointY c history v))).
  { intros j v Hj. simpl.
    rewrite Forall_forall in Hdata.
    destruct (Hdata v (nth_error_In _ _ Hj)) as [Hv0 Hv1].
    pose proof (pointX_right_of_left_line j).
    destruct (pointY_in_plot Hv0 Hv1).
    repeat split; assumption. }
  repeat (apply Forall_app; split).
  - constructor; [exact I|]. constructor; [|constructor].
    unfold within_plot_lines. repeat split; lra.
  - apply forEach_i_Forall. intros j v Hj. constructor; [|constructor].
    apply Hpoint, Hj.
  - constructor.
    + pose proof (closing_point data Hpos).
      unfold within_plot_lines. repeat split; try assumption; lra.
    + repeat constructor.
  - apply forEach_i_Forall. intros j v Hj. simpl.
    destruct (j =? 0)%nat; (constructor; [|constructor]); apply (Hpoint j v Hj).
  - repeat constructor.
Qed.

End Frame.

Lemma drawArea_draws (c : Canvas) (history : list BandwidthSnapshot)
      (data : list Q) (color fillColor : string) (j : nat) (v : Q) :
  nth_error data j = Some v ->
  In (lineTo (pointX c history j) (pointY c history v))
     (drawArea c history data color fillColor).
Proof.
  intros Hj. unfold drawArea.
  apply in_or_app. right. apply in_or_app. left.
  apply (@forEach_i_In _ _ data 0%nat j v Hj). left. reflexivity.
Qed.

Lemma pointY_of_maximum (c : Canvas) (history : list BandwidthSnapshot) (v : Q) :
  v == maxValue history -> pointY c history v == top padding.
Proof.
  intros Hv. unfold pointY, chartHeight. rewrite Hv. simpl.
  pose proof (maxValue_at_least_1 history) as Hm.
  field. intros H0. rewrite H0 in Hm. lra.
Qed.

(** X9. The chart stays between its padding lines where the rounding of
    the coordinates cannot matter: on a canvas of at least 20 by 20 pixels
    and for samples that are not negative, no point that updateChart passes
    to moveTo or lineTo lies above the top padding line, below the
    baseline or to the left of the left padding line. *)
Theorem chart_stays_within_plot_lines
        (c : Canvas) (history : list BandwidthSnapshot) :
  (20 <= width c)%Z -> (20 <= height c)%Z ->
  (forall p, In p history -> 0 <= download p /\ 0 <= upload p) ->
  Forall (within_plot_lines c) (updateChart (Some c) history).
Proof.
  intros Hw Hh Hpos. unfold updateChart.
  destruct history as [|p0 rest] eqn:E; [constructor|].
  rewrite <- E in *. assert (Hlen : (0 < length history)%nat) by (subst; simpl; lia).
  replace (length history =? 0)%nat with false
    by (symmetry; apply Nat.eqb_neq; lia).
  destruct (fold_Qmax_bounds (allValues history) 1) as (_ & Hall & _).
  fold (maxValue history) in Hall.
  apply Forall_app; split; [|apply Forall_app; split].
  - repeat constructor.
  - apply drawArea_within_lines; auto; [rewrite length_map; exact Hlen|].
    rewrite Forall_map, Forall_forall. intros p Hp. split.
    + apply Hpos, Hp.
    + apply Hall. unfold allValues. apply in_flat_map. exists p. simpl. auto.
  - apply drawArea_within_lines; auto; [rewrite length_map; exact Hlen|].
    rewrite Forall_map, Forall_forall. intros p Hp. split.
    + apply Hpos, Hp.
    + apply Hall. unfold allValues. apply in_flat_map. exists p. simpl. auto.
Qed.

Lemma chart_stays_within_plot_lines_witness :
  Forall (within_plot_lines small_canvas)
         (updateChart (Some small_canvas) three_samples).
Proof.
  apply chart_stays_within_plot_lines.
  - simpl. lia.
  - simpl. lia.
  - intros p [<-|[<-|[<-|[]]]]; simpl; split; lra.
Defined.

(** X10. The peak touches the top of the plot.  The first point of a
    series is on the left padding line, a sample equal to the scale maximum
    is drawn on the top padding line and a sample 0 on the baseline; so
    whenever some sample of the history is 1 or more, updateChart draws a
    point on the top padding line. *)
Theorem chart_peak_touches_top (c : Canvas) (history : list BandwidthSnapshot) :
  pointX c history 0 == left padding
  /\ pointY c history (maxValue history) == top padding
  /\ pointY c history 0 == inject_Z (height c) - bottom padding
  /\ ((exists v, In v (allValues history) /\ 1 <= v) ->
      exists x y, In (lineTo x y) (updateChart (Some c) history)
                  /\ y == top padding).
Proof.
  split; [|split; [|split]].
  - unfold pointX. simpl. ring.
  - apply pointY_of_maximum. reflexivity.
  - unfold pointY, chartHeight. simpl.
    pose proof (maxValue_at_least_1 history) as Hm.
    field. intros H0. rewrite H0 in Hm. lra.
  - intros (v & Hv & Hv1).
    destruct (fold_Qmax_bounds (allValues history) 1) as (_ & Hall & Hin).
    fold (maxValue history) in Hall, Hin.
    assert (Hpeak : exists w, In w (allValues history) /\ w == maxValue history).
    { destruct Hin as [Hone|Hin].
      - exists v. split; [exact Hv|].
        pose proof (Hall v Hv) as Hle. rewrite Hone in Hle |- *.
        apply Qle_antisym; assumption.
      - exists (maxValue history). split; [exact Hin | reflexivity]. }
    destruct Hpeak as (w & Hw & Hwmax).
    unfold allValues in Hw. apply in_flat_map in Hw.
    destruct Hw as (p & Hp & Hwp).
    destruct (In_nth_error _ _ Hp) as [j Hj].
    assert (Hne : (length history =? 0)%nat = false).
    { apply Nat.eqb_neq. destruct history; [destruct Hp | discriminate]. }
    exists (pointX c history j), (pointY c history w).
    split; [|apply pointY_of_maximum, Hwmax].
    unfold updateChart. rewrite Hne.
    apply in_or_app. right. apply in_or_app.
    simpl in Hwp. destruct Hwp as [<-|[<-|[]]]; [left | right];
      apply drawArea_draws; apply map_nth_error, Hj.
Qed.

Lemma chart_peak_touches_top_witness :
  exists x y, In (lineTo x y) (updateChart (Some small_canvas) three_samples)
              /\ y == top padding.
Proof.
  apply (proj2 (proj2 (proj2 (chart_peak_touches_top small_canvas three_samples)))).
  exists 8. split; [|unfold Qle; simpl; lia].
  simpl. right. right. left. reflexivity.
Defined.

End ChartGeometry.


(** ** The generated history *)

Section DemoHistory.
Import History.

Lemma appended_timestamps (e : Env) (es : list Env) :
  map timestamp (appended (run (e :: es))) = backfill (now e) ++ map now es.
Proof.
  induction es as [|e' es IH] using rev_ind.
  - reflexivity.
  - rewrite run_cons_snoc.
    destruct (@generateDemoHistory_on_full (run (e :: es)) e') as [_ ->].
    { apply run_full. discriminate. }
    rewrite !map_app, IH. rewrite <- app_assoc. reflexivity.
Qed.

(** X11. The timestamps in the array are known exactly: after the first
    call and any number of further calls they are the last 60 entries of
    the one-minute backfill of the first call (one per second, ending at
    its clock reading) followed by the clock readings of the further
    calls. *)
Theorem history_timestamps (e : Env) (es : list Env) :
  map timestamp (items (run (e :: es)))
  = lastn historyLength (backfill (now e) ++ map now es).
Proof.
  pose proof (run_window (e :: es)) as Hw. unfold window in Hw.
  rewrite Hw. unfold lastn. rewrite <- skipn_map, appended_timestamps.
  rewrite <- (length_map timestamp), appended_timestamps. reflexivity.
Qed.

Lemma demoPoint_in_range (e : Env) (ts : Z) (k : nat) :
  in_unit_interval e -> demo_range (demoPoint ts e k).
Proof.
  intros H. destruct (H k) as [H0 H1]. destruct (H (S k)) as [H2 H3].
  unfold demo_range, demoPoint. cbn [download upload]. repeat split; lra.
Qed.

Lemma initLoop_appended_Forall (P : BandwidthSnapshot -> Prop) (e : Env) (n : nat) :
  (forall ts k, P (demoPoint ts e k)) ->
  forall k b, Forall P (appended b) -> Forall P (appended (initLoop e n k b)).
Proof.
  intros HP. induction n as [|i IH]; intros k b Hb; simpl; [exact Hb|].
  apply IH. unfold push. cbn [appended]. apply Forall_app. split; auto.
Qed.

Lemma generateDemoHistory_appended_Forall (P : BandwidthSnapshot -> Prop)
      (b : Buffer) (e : Env) :
  (forall ts k, P (demoPoint ts e k)) ->
  Forall P (appended b) -> Forall P (appended (generateDemoHistory b e)).
Proof.
  intros HP Hb. unfold generateDemoHistory.
  destruct (length (items b) =? 0)%nat.
  - apply initLoop_appended_Forall; assumption.
  - cbv zeta.
    assert (Hpush : Forall P (appended (push b (demoPoint (now e) e 0)))).
    { unfold push. cbn [appended]. apply Forall_app. split; auto. }
    destruct (historyLength <? _)%nat; exact Hpush.
Qed.

Lemma run_in_range (es : list Env) :
  Forall in_unit_interval es -> Forall demo_range (items (run es)).
Proof.
  intros Hes.
  assert (Hlog : Forall demo_range (appended (run es))).
  { induction es as [|e es IH] using rev_ind; [constructor|].
    apply Forall_app in Hes. destruct Hes as [Hes He]. inversion He; subst.
    rewrite run_snoc. apply generateDemoHistory_appended_Forall; auto.
    intros ts k. apply demoPoint_in_range. assumption. }
  pose proof (run_window es) as Hw. unfold window, lastn in Hw. rewrite Hw.
  rewrite <- (firstn_skipn (length (appended (run es)) - historyLength)) in Hlog.
  apply Forall_app in Hlog. tauto.
Qed.

(** X12. While every draw lies in [0, 1), every snapshot in the array has
    a download rate in [20000000, 60000000) and an upload rate in
    [5000000, 15000000), so the upload rate is below the download rate;
    and once the generator has run, the scale maximum of the chart lies in
    [20000000, 60000000) as well. *)
Theorem demo_samples_in_range (es : list Env) :
  Forall in_unit_interval es ->
  Forall demo_range (items (run es))
  /\ Forall (fun p => upload p < download p) (items (run es))
  /\ (es <> [] ->
      20000000 <= Chart.maxValue (items (run es))
      /\ Chart.maxValue (items (run es)) < 60000000).
Proof.
  intros Hes. pose proof (run_in_range Hes) as Hrange.
  split; [exact Hrange|]. split.
  - eapply Forall_impl; [|exact Hrange]. unfold demo_range. intros p Hp. lra.
  - intros Hne. pose proof (run_full Hne) as Hfull.
    destruct (fold_Qmax_bounds (Chart.allValues (items (run es))) 1)
      as (_ & Hall & Hin).
    fold (Chart.maxValue (items (run es))) in Hall, Hin.
    rewrite Forall_forall in Hrange. split.
    + destruct (items (run es)) as [|p rest] eqn:E; [discriminate|].
      assert (Hp : demo_range p) by (apply Hrange; left; reflexivity).
      eapply Qle_trans; [apply Hp|]. apply Hall. simpl. auto.
    + destruct Hin as [-> | Hin]; [reflexivity|].
      apply in_flat_map in Hin. destruct Hin as (p & Hp & Hv).
      pose proof (Hrange p Hp) as Hr. unfold demo_range in Hr.
      simpl in Hv. destruct Hv as [<-|[<-|[]]]; lra.
Qed.

Lemma demo_samples_in_range_witness :
  Forall demo_range (items (run [env0; env1])).
Proof.
  apply (@demo_samples_in_range [env0; env1]).
  repeat constructor; simpl; lra.
Defined.

Lemma current_of_snoc (l : list BandwidthSnapshot) (x : BandwidthSnapshot) :
  Legend.currentDown (l ++ [x]) = download x
  /\ Legend.currentUp (l ++ [x]) = upload x.
Proof.
  unfold Legend.currentDown, Legend.currentUp.
  rewrite last_length. cbn [Nat.ltb Nat.leb].
  replace (S (length l) - 1)%nat with (length l) by lia.
  rewrite nth_error_app2 by lia. rewrite Nat.sub_diag. split; reflexivity.
Qed.

(** X13. The legend shows the newest sample: after a call of the generator
    on an array already filled, the current download and upload values of
    the legend are the rates of the snapshot that this call has just
    pushed; with an empty history both are 0. *)
Theorem legend_shows_newest_sample (es : list Env) (e : Env) :
  (es <> [] ->
   Legend.currentDown (items (run (es ++ [e]))) = download (demoPoint (now e) e 0)
   /\ Legend.currentUp (items (run (es ++ [e]))) = upload (demoPoint (now e) e 0))
  /\ Legend.currentDown [] = 0
  /\ Legend.currentUp [] = 0.
Proof.
  split; [|split; reflexivity].
  intros Hne. rewrite run_snoc.
  destruct (@generateDemoHistory_on_full (run es) e) as [-> _].
  { apply run_full, Hne. }
  apply current_of_snoc.
Qed.

Lemma legend_shows_newest_sample_witness :
  Legend.currentDown (items (run ([env0] ++ [env1])))
  = download (demoPoint (now env1) env1 0).
Proof.
  apply (proj1 (legend_shows_newest_sample [env0] env1)). discriminate.
Defined.

End DemoHistory.

(** ** The scheduler of the script keeps going *)

Section SchedulerProgress.
Import Scheduler.
Variable demoMode : bool.

(** X14. The scheduler of the script cannot get stuck: after any events,
    a trigger leaves exactly one cycle in flight (the running one, or a
    new one), and the settling of the reads, whatever they returned, leaves
    none and the flag cleared. *)
Theorem vanilla_scheduler_never_stuck (evs : list Event) :
  inFlight (runVanilla demoMode (evs ++ [Trigger])) = 1%nat
  /\ forall d r,
      inFlight (runVanilla demoMode (evs ++ [Settle d r])) = 0%nat
      /\ Vanilla.isRefreshing (state (runVanilla demoMode (evs ++ [Settle d r])))
         = false.
Proof.
  pose proof (runVanilla_flag_counts demoMode evs) as H.
  unfold flag_counts in H. unfold runVanilla in *.
  split.
  - rewrite fold_left_app. simpl. unfold Vanilla.refreshData_enter.
    destruct (Vanilla.isRefreshing _) eqn:E; simpl; lia.
  - intros d r. rewrite fold_left_app. simpl.
    destruct (inFlight (fold_left (stepVanilla demoMode) evs _)) as [|n] eqn:En.
    + rewrite En. split; [reflexivity|].
      destruct (Vanilla.isRefreshing _); [discriminate | reflexivity].
    + simpl. split; [|reflexivity].
      destruct (Vanilla.isRefreshing _); lia.
Qed.

End SchedulerProgress.


(** ** The demo generators *)

Section DemoGenerators.
Import Client DemoData.

Lemma jitter_bounds (base : Z) (r : Q) :
  (0 <= base)%Z -> 0 <= r -> r < 1 ->
  (8 * base - 10 < 10 * jitter base r /\ 10 * jitter base r <= 12 * base)%Z.
Proof.
  intros Hb Hr0 Hr1. unfold jitter.
  set (x := inject_Z base * ((8 # 10) + r * (4 # 10))).
  pose proof (Qfloor_le x) as Hlo. pose proof (Qlt_floor x) as Hhi.
  assert (Hb' : 0 <= inject_Z base)
    by (change 0 with (inject_Z 0); rewrite <- Zle_Qle; exact Hb).
  assert (Hbr0 : 0 <= inject_Z base * r) by (apply Qmult_le_0_compat; assumption).
  assert (Hbr1 : inject_Z base * r <= inject_Z base) by nra.
  assert (Hx : x == inject_Z base * (8 # 10) + (inject_Z base * r) * (4 # 10))
    by (unfold x; ring).
  rewrite inject_Z_plus in Hhi. change (inject_Z 1) with 1 in Hhi.
  split.
  - rewrite Zlt_Qlt. unfold Z.sub.
    rewrite inject_Z_plus, inject_Z_opp, !inject_Z_mult.
    change (inject_Z 8) with 8. change (inject_Z 10) with 10. lra.
  - rewrite Zle_Qle. rewrite !inject_Z_mult.
    change (inject_Z 12) with 12. change (inject_Z 10) with 10. lra.
Qed.

Lemma jitterAll_jittered (random : nat -> Q) (base : list ClientTraffic) :
  unit_draws random ->
  Forall has_speeds base ->
  forall k, Forall2 jittered base (jitterAll base random k).
Proof.
  intros Hr. induction 1 as [|b base Hb _ IH]; intros k; simpl; constructor.
  - destruct Hb as ((vd & Hd & Hd0) & (vu & Hu & Hu0)).
    unfold jittered. cbn [ip mac hostname download upload lastSeen speedLimit
                          downloadSpeed uploadSpeed].
    rewrite Hd, Hu. simpl.
    destruct (Hr k), (Hr (S k)).
    repeat split; try reflexivity; apply jitter_bounds; assumption.
  - apply IH.
Qed.

Lemma baseClients_have_speeds (now : Z) : Forall has_speeds (baseClients now).
Proof.
  unfold baseClients, device.
  repeat constructor; eexists; (split; [reflexivity | lia]).
Qed.

Lemma jittered_nonzero (b c : ClientTraffic) :
  nonzero b ->
  (forall v, downloadSpeed b = Some v -> (2 <= v)%Z) ->
  (forall v, uploadSpeed b = Some v -> (2 <= v)%Z) ->
  jittered b c -> nonzero c.
Proof.
  intros ((d & Hd & Hd0) & (u & Hu & Hu0) & (ds & Hds & _) & (us & Hus & _))
         H2d H2u (_ & _ & _ & Ed & Eu & _ & _ & Wd & Wu).
  specialize (H2d ds Hds). specialize (H2u us Hus).
  unfold nonzero. rewrite Ed, Eu, Hd, Hu.
  rewrite Hds in Wd. rewrite Hus in Wu. unfold within_a_fifth in Wd, Wu.
  destruct (downloadSpeed c) as [vd|]; [|contradiction].
  destruct (uploadSpeed c) as [vu|]; [|contradiction].
  repeat split; eexists; (split; [reflexivity | lia]).
Qed.

Lemma Forall2_Forall_r (A : Type) (R : A -> A -> Prop) (P Q : A -> Prop)
      (l l' : list A) :
  (forall a b, P a -> R a b -> Q b) ->
  Forall P l -> Forall2 R l l' -> Forall Q l'.
Proof.
  intros HPQ HP HR. revert HP.
  induction HR as [|a b l l' Hab _ IH]; intros HP; constructor;
    inversion HP; subst; eauto.
Qed.

Lemma baseClients_busy (now : Z) :
  Forall (fun b => nonzero b
                   /\ (forall v, downloadSpeed b = Some v -> (2 <= v)%Z)
                   /\ (forall v, uploadSpeed b = Some v -> (2 <= v)%Z))
         (baseClients now).
Proof.
  unfold baseClients, device.
  repeat constructor;
    try (eexists; (split; [reflexivity | lia]));
    cbn [downloadSpeed uploadSpeed]; intros v Hv; injection Hv as <-; lia.
Qed.

(** X16. While every draw lies in [0, 1), the generated device list is the
    literal list with only the two speeds of each device redrawn, each
    within a fifth of its base value (up to the rounding down); every
    numeric field of every generated device is present and not zero, so
    the script's table sort returns on it for every field and direction;
    and its byte totals are those of the literal list, whatever was drawn. *)
Theorem demo_clients_are_jittered (now : Z) (random : nat -> Q) :
  unit_draws random ->
  Forall2 jittered (baseClients now) (generateDemoClients now random)
  /\ Forall nonzero (generateDemoClients now random)
  /\ (forall localeCompare s,
        exists out,
          SortEngine.sortedVanilla localeCompare s (generateDemoClients now random)
          = Js.Normal out
          /\ Permutation (generateDemoClients now random) out)
  /\ Stats.totalTraffic (generateDemoClients now random)
     = Stats.totalTraffic (baseClients now).
Proof.
  intros Hr.
  assert (HJ : Forall2 jittered (baseClients now) (generateDemoClients now random)).
  { apply jitterAll_jittered; [exact Hr | apply baseClients_have_speeds]. }
  assert (HN : Forall nonzero (generateDemoClients now random)).
  { eapply Forall2_Forall_r; [| apply (baseClients_busy now) | exact HJ].
    intros b c (Hn & H2d & H2u) Hj. eapply jittered_nonzero; eauto. }
  split; [exact HJ|]. split; [exact HN|]. split.
  - intros localeCompare s.
    destruct (@sort_returns _ (SortEngine.compareVanilla localeCompare s)
                            (generateDemoClients now random)) as [out Hout].
    { intros x y Hx _. apply compareVanilla_returns.
      rewrite Forall_forall in HN. apply HN, Hx. }
    exists out. split; [exact Hout|]. eapply sort_Permutation, Hout.
  - reflexivity.
Qed.

Lemma demo_clients_are_jittered_witness :
  Forall nonzero (generateDemoClients 0 (fun _ => 1 # 2)).
Proof.
  apply (@demo_clients_are_jittered 0%Z (fun _ => 1 # 2)).
  intros k. split; lra.
Defined.

Lemma demoStatus_uptime_range (i : string) (r : Q) :
  0 <= r -> r < 1 ->
  (86400 <= uptime (demoStatus i r) < 90000)%Z.
Proof.
  intros H0 H1. unfold demoStatus. cbn [uptime].
  pose proof (Qfloor_le (r * 3600)) as Hlo.
  assert (Hge : (Qfloor 0 <= Qfloor (r * 3600))%Z) by (apply Qfloor_resp_le; lra).
  change (Qfloor 0) with 0%Z in Hge.
  assert (Hlt : (Qfloor (r * 3600) < 3600)%Z).
  { rewrite Zlt_Qlt. change (inject_Z 3600) with 3600. lra. }
  lia.
Qed.

(** X17. In demo mode the uptime of the script is one day and less than
    an hour, for every draw in [0, 1): formatDuration shows it as "1d",
    or as "1d" followed by the minutes, and never shows hours. *)
Theorem demo_uptime_shows_one_day (currentInterface : string) (r : Q) :
  0 <= r -> r < 1 ->
  let u := uptime (demoStatus currentInterface r) in
  Formatting.days u = 1%Z
  /\ Formatting.hours u = 0%Z
  /\ (0 <= Formatting.minutes u < 60)%Z
  /\ Formatting.formatDuration u
     = if (0 <? Formatting.minutes u)%Z
       then String.append "1d " (Formatting.suffixed (Formatting.minutes u) "m")
       else "1d"%string.
Proof.
  intros H0 H1 u.
  pose proof (demoStatus_uptime_range currentInterface H0 H1) as Hu.
  fold u in Hu.
  assert (Hd : Formatting.days u = 1%Z).
  { unfold Formatting.days. Z.to_euclidean_division_equations. lia. }
  assert (Hh : Formatting.hours u = 0%Z).
  { unfold Formatting.hours. rewrite rem_nonneg by lia.
    Z.to_euclidean_division_equations. lia. }
  assert (Hm : (0 <= Formatting.minutes u < 60)%Z).
  { unfold Formatting.minutes. rewrite rem_nonneg by lia.
    Z.to_euclidean_division_equations. lia. }
  repeat split; try assumption; try lia.
  unfold Formatting.formatDuration, Formatting.parts. rewrite Hd, Hh.
  cbn [Z.ltb Z.compare app].
  destruct (0 <? Formatting.minutes u)%Z; reflexivity.
Qed.

Lemma demo_uptime_shows_one_day_witness :
  Formatting.days (uptime (demoStatus "br-lan" (1 # 2))) = 1%Z.
Proof.
  apply (@demo_uptime_shows_one_day "br-lan"%string (1 # 2)); lra.
Defined.

End DemoGenerators.


(** ** Speed limits *)

Section LimitWrites.
Import Client Writes.

Lemma find_after_update (mac : string) (limit : option SpeedLimit)
      (l : list ClientTraffic) :
  find (fun c => String.eqb (Client.mac c) mac)
       (map (fun c => if String.eqb (Client.mac c) mac then withLimit c limit else c) l)
  = option_map (fun c => withLimit c limit)
               (find (fun c => String.eqb (Client.mac c) mac) l).
Proof.
  induction l as [|c l IH]; simpl; [reflexivity|].
  destruct (String.eqb (Client.mac c) mac) eqn:E; simpl; rewrite E; auto.
Qed.

Lemma find_listed (mac : string) (l : list ClientTraffic) :
  (exists c, In c l /\ Client.mac c = mac) ->
  exists c, find (fun c => String.eqb (Client.mac c) mac) l = Some c.
Proof.
  intros (c & Hin & Hmac).
  destruct (find (fun c => String.eqb (Client.mac c) mac) l) eqn:E; [eauto|].
  exfalso. eapply find_none in E; [|exact Hin]. simpl in E.
  rewrite Hmac, String.eqb_refl in E. discriminate.
Qed.

(** X18. In demo mode the limit button toggles: once setSpeedLimit has
    stored an enabled limit for a listed device, a click on that device's
    button removes the limit, and once it has stored no limit (or a
    disabled one) the click opens the editor.  Outside demo mode
    setSpeedLimit leaves the state alone, so the button does what it did
    before, and the failure alert is raised exactly when the write did not
    succeed. *)
Theorem limit_button_toggles (s : Vanilla.State) (mac hostname : string)
        (limit : SpeedLimit) (r : WriteResponse) :
  ((exists c, In c (Vanilla.clients s) /\ Client.mac c = mac) ->
   onLimitButton (fst (setSpeedLimit true s mac (Some limit) r)) mac hostname
   = if enabled limit then RemoveLimit mac else OpenLimitModal mac hostname)
  /\ onLimitButton (fst (setSpeedLimit true s mac None r)) mac hostname
     = OpenLimitModal mac hostname
  /\ (forall l, setSpeedLimit false s mac l r = (s, negb (succeeded r)))
  /\ (forall l, snd (setSpeedLimit true s mac l r) = false).
Proof.
  split; [|split; [|split]]; try reflexivity.
  - intros Hlisted. destruct (@find_listed mac _ Hlisted) as [c Hc].
    unfold onLimitButton, setSpeedLimit. cbn [fst set_clients Vanilla.clients].
    rewrite find_after_update, Hc. reflexivity.
  - unfold onLimitButton, setSpeedLimit. cbn [fst set_clients Vanilla.clients].
    rewrite find_after_update.
    destruct (find _ (Vanilla.clients s)); reflexivity.
Qed.

Lemma limit_button_toggles_witness :
  onLimitButton (fst (setSpeedLimit true two_devices "B" (Some some_limit)
                                    WriteRejected)) "B" "b"
  = RemoveLimit "B".
Proof.
  apply (proj1 (limit_button_toggles two_devices "B" "b" some_limit WriteRejected)).
  exists deviceB. split; [right; left; reflexivity | reflexivity].
Defined.




End LimitWrites.

Section LimitRequests.
Import Client LimitEditor.

Lemma initialDraft_in_range : draft_in_range initialDraft.
Proof. repeat split; simpl; lia. Qed.

Lemma preset_in_range (i : nat) (label : string) (download upload : Z) :
  nth_error PRESET_LIMITS i = Some (label, download, upload) ->
  download_in_range download /\ upload_in_range upload.
Proof.
  do 5 (destruct i as [|i];
        [intros H; injection H as _ <- <-; repeat split; simpl; lia|]).
  destruct i; discriminate.
Qed.

Lemma step_keeps_range (t : Table) (ev : Event) :
  valid_event ev -> draft_in_range (draft t) ->
  draft_in_range (draft (fst (step t ev)))
  /\ Forall well_formed (snd (step t ev)).
Proof.
  intros Hev Ht. destruct ev as [client|i|v|v| |]; unfold step.
  - destruct (Writes.limitEnabled (Some client)); simpl.
    + split; [exact Ht | repeat constructor].
    + split; [|constructor].
      destruct (selectedClient t); [exact Ht | apply initialDraft_in_range].
  - destruct (selectedClient t); simpl; [|split; [exact Ht | constructor]].
    destruct (nth_error PRESET_LIMITS i) as [[[label d] u]|] eqn:E; simpl.
    + split; [|constructor]. apply (preset_in_range _ E).
    + split; [exact Ht | constructor].
  - destruct (selectedClient t); simpl; (split; [|constructor]); [|exact Ht].
    split; [exact Hev | apply Ht].
  - destruct (selectedClient t); simpl; (split; [|constructor]); [|exact Ht].
    split; [apply Ht | exact Hev].
  - destruct (selectedClient t); simpl.
    + split; [apply initialDraft_in_range|].
      constructor; [|constructor]. simpl. split; [reflexivity | exact Ht].
    + split; [exact Ht | constructor].
  - destruct (selectedClient t); simpl; (split; [|constructor]);
      [apply initialDraft_in_range | exact Ht].
Qed.

Lemma run_keeps_range (evs : list Event) :
  Forall valid_event evs ->
  forall t, draft_in_range (draft t) -> Forall well_formed (snd (run t evs)).
Proof.
  induction 1 as [|ev evs Hev _ IH]; intros t Ht; simpl; [constructor|].
  destruct (@step_keeps_range t ev Hev Ht) as [Ht1 Hsent].
  destruct (step t ev) as [t1 sent]. simpl in *.
  specialize (IH t1 Ht1). destruct (run t1 evs) as [t2 later]. simpl in *.
  apply Forall_app. split; assumption.
Qed.

(** X20. Whatever the user does with the table and its editor, every
    limit request sent is well formed: it is either a removal, or a limit
    with [enabled = true] whose download ceiling lies in [100, 100000] and
    whose upload ceiling lies in [100, 50000], both multiples of 100, which
    are the values the two sliders can hold.  This relies on the initial
    draft and on all five presets being such values. *)
Theorem limit_requests_are_well_formed (evs : list LimitEditor.Event) :
  Forall valid_event evs ->
  Forall well_formed (snd (LimitEditor.run LimitEditor.closed evs)).
Proof.
  intros Hevs. apply run_keeps_range; [exact Hevs | apply initialDraft_in_range].
Qed.

Lemma limit_requests_are_well_formed_witness :
  Forall well_formed
         (snd (LimitEditor.run LimitEditor.closed
                 [ClickLimitCell deviceA; ClickPreset 4; SlideUpload 300;
                  ClickApply])).
Proof.
  apply limit_requests_are_well_formed.
  repeat constructor; simpl; lia.
Defined.

End LimitRequests.


(** ** Sorted rows stay sorted *)

Section SortedBy.
Variable A : Type.
Variable comparefn : A -> A -> Js.completion Js.number.
Variable c : A -> A -> Z.
Hypothesis c_total : forall x y, (0 < c x y)%Z -> (c y x <= 0)%Z.
Hypothesis c_trans : forall x y z, (c x y <= 0)%Z -> (c y z <= 0)%Z -> (c x z <= 0)%Z.

Lemma insert_sorted_by (x : A) (sorted r : list A) :
  (forall y, In y sorted -> comparefn x y = Js.Normal (Js.Fin (c x y))) ->
  StronglySorted (fun a b => (c a b <= 0)%Z) sorted ->
  Js.insert comparefn x sorted = Js.Normal r ->
  StronglySorted (fun a b => (c a b <= 0)%Z) r.
Proof.
  revert r. induction sorted as [|y rest IH]; intros r Hc Hs H; simpl in H.
  - injection H as <-. repeat constructor.
  - rewrite (Hc y (or_introl eq_refl)) in H. simpl in H.
    inversion Hs as [|? ? Hrest Hy]; subst.
    destruct (Z.ltb_spec 0 (c x y)) as [Hpos|Hle].
    + destruct (Js.insert comparefn x rest) as [r'|e] eqn:Hi; simpl in H;
        [|discriminate].
      injection H as <-. constructor.
      * apply IH; auto. intros z Hz. apply Hc. right. exact Hz.
      * eapply Permutation_Forall;
          [apply (@insert_Permutation _ comparefn _ _ _ Hi)|].
        constructor; [apply c_total, Hpos | exact Hy].
    + injection H as <-. constructor; [exact Hs|].
      constructor; [exact Hle|].
      eapply Forall_impl; [|exact Hy]. simpl. intros z Hz.
      eapply c_trans; eassumption.
Qed.

Lemma sort_sorted_by (l : list A) :
  (forall x y, In x l -> In y l -> comparefn x y = Js.Normal (Js.Fin (c x y))) ->
  exists r, Js.sort comparefn l = Js.Normal r
            /\ Permutation l r
            /\ StronglySorted (fun a b => (c a b <= 0)%Z) r.
Proof.
  induction l as [|x rest IH]; intros Hc; simpl.
  - exists []. repeat split; constructor.
  - destruct IH as (s & Hs & Hperm & Hsorted).
    { intros a b Ha Hb. apply Hc; right; assumption. }
    rewrite Hs. simpl.
    destruct (@insert_returns _ comparefn x s) as [r Hr].
    { intros y Hy. eexists. apply Hc; [left; reflexivity|right].
      eapply Permutation_in; [apply Permutation_sym, Hperm | exact Hy]. }
    exists r. split; [exact Hr|]. split.
    + eapply perm_trans; [apply perm_skip, Hperm|].
      apply (@insert_Permutation _ comparefn _ _ _ Hr).
    + eapply insert_sorted_by; [|exact Hsorted|exact Hr].
      intros y Hy. apply Hc; [left; reflexivity|right].
      eapply Permutation_in; [apply Permutation_sym, Hperm | exact Hy].
Qed.

Lemma sort_of_sorted (l : list A) :
  (forall x y, In x l -> In y l -> comparefn x y = Js.Normal (Js.Fin (c x y))) ->
  StronglySorted (fun a b => (c a b <= 0)%Z) l ->
  Js.sort comparefn l = Js.Normal l.
Proof.
  induction l as [|x rest IH]; intros Hc Hs; simpl; [reflexivity|].
  inversion Hs as [|? ? Hrest Hx]; subst.
  rewrite IH; auto; [|intros a b Ha Hb; apply Hc; right; assumption].
  simpl. destruct rest as [|y rest']; [reflexivity|]. simpl.
  rewrite Hc by (simpl; auto). simpl.
  inversion Hx; subst.
  destruct (Z.ltb_spec 0 (c x y)); [lia | reflexivity].
Qed.

End SortedBy.

Section Collation.
Import Client SortEngine.
Variable localeCompare : string -> string -> Z.
Hypothesis collates : total_preorder localeCompare.

Lemma comparisonValue_total (f : SortField) (dir : SortDirection)
      (x y : ClientTraffic) :
  (0 < comparisonValue localeCompare f dir x y)%Z ->
  (comparisonValue localeCompare f dir y x <= 0)%Z.
Proof.
  destruct collates as [Htot _]. unfold comparisonValue.
  destruct (isNumeric f); [destruct dir; lia|].
  destruct dir; simpl; apply Htot.
Qed.

Lemma comparisonValue_trans (f : SortField) (dir : SortDirection)
      (x y z : ClientTraffic) :
  (comparisonValue localeCompare f dir x y <= 0)%Z ->
  (comparisonValue localeCompare f dir y z <= 0)%Z ->
  (comparisonValue localeCompare f dir x z <= 0)%Z.
Proof.
  destruct collates as [_ Htr]. unfold comparisonValue.
  destruct (isNumeric f); [destruct dir; lia|].
  destruct dir; simpl; intros H1 H2; eapply Htr; eassumption.
Qed.

Lemma compare_text (f : SortField) (dir : SortDirection) (a b : ClientTraffic) :
  isNumeric f = false ->
  compareReact localeCompare (mkSortSpec f dir) a b
  = Js.Normal (Js.Fin (comparisonValue localeCompare f dir a b))
  /\ compareVanilla localeCompare (mkSortSpec f dir) a b
     = Js.Normal (Js.Fin (comparisonValue localeCompare f dir a b)).
Proof.
  intros Hf. unfold comparisonValue. rewrite Hf.
  destruct f; try discriminate.
  - apply compare_hostname_by_key.
  - unfold compareReact, compareVanilla, compareValues, textKey. simpl.
    destruct (ip a) as [[|? ?]|], (ip b) as [[|? ?]|], dir; split; reflexivity.
Qed.

Lemma compareReact_value (f : SortField) (dir : SortDirection)
      (a b : ClientTraffic) :
  typed a -> typed b ->
  compareReact localeCompare (mkSortSpec f dir) a b
  = Js.Normal (Js.Fin (comparisonValue localeCompare f dir a b)).
Proof.
  intros Ha Hb. destruct (isNumeric f) eqn:Hf.
  - rewrite compareReact_numeric by auto. unfold comparisonValue. rewrite Hf.
    reflexivity.
  - apply compare_text, Hf.
Qed.

Lemma compareVanilla_value (f : SortField) (dir : SortDirection)
      (a b : ClientTraffic) :
  nonzero a -> nonzero b ->
  compareVanilla localeCompare (mkSortSpec f dir) a b
  = Js.Normal (Js.Fin (comparisonValue localeCompare f dir a b)).
Proof.
  intros Ha Hb. destruct (isNumeric f) eqn:Hf.
  - rewrite compareVanilla_numeric by auto. unfold comparisonValue. rewrite Hf.
    reflexivity.
  - apply compare_text, Hf.
Qed.

(** X21. Under a collation that orders all strings, sorting by display
    name or by address always returns, for every device list, and puts the
    keys in collation order: each row's key comes no later (ascending) or
    no earlier (descending) than the key of any later row.  The key is the
    order key of the hostname, or the address text, empty when missing. *)
Theorem text_sort_follows_collation (f : SortField) (dir : SortDirection)
        (clients : list ClientTraffic) :
  isNumeric f = false ->
  (exists out,
      sortedClients localeCompare (mkSortSpec f dir) clients = Js.Normal out
      /\ Permutation clients out
      /\ StronglySorted
           (fun a b => (directed localeCompare dir (textKey f a) (textKey f b) <= 0)%Z)
           out)
  /\ (exists out,
         sortedVanilla localeCompare (mkSortSpec f dir) clients = Js.Normal out
         /\ Permutation clients out
         /\ StronglySorted
              (fun a b => (directed localeCompare dir (textKey f a) (textKey f b) <= 0)%Z)
              out).
Proof.
  intros Hf.
  assert (Hc : forall a b, comparisonValue localeCompare f dir a b
                           = directed localeCompare dir (textKey f a) (textKey f b)).
  { intros a b. unfold comparisonValue. rewrite Hf. reflexivity. }
  split.
  - destruct (@sort_sorted_by _ (compareReact localeCompare (mkSortSpec f dir))
                (comparisonValue localeCompare f dir)
                (comparisonValue_total f dir) (comparisonValue_trans f dir)
                clients) as (out & Hout & Hperm & Hsorted).
    { intros x y _ _. apply compare_text, Hf. }
    exists out. repeat split; auto.
    eapply StronglySorted_weaken; [|exact Hsorted].
    intros a b Hab. simpl in Hab. rewrite Hc in Hab. exact Hab.
  - destruct (@sort_sorted_by _ (compareVanilla localeCompare (mkSortSpec f dir))
                (comparisonValue localeCompare f dir)
                (comparisonValue_total f dir) (comparisonValue_trans f dir)
                clients) as (out & Hout & Hperm & Hsorted).
    { intros x y _ _. apply compare_text, Hf. }
    exists out. repeat split; auto.
    eapply StronglySorted_weaken; [|exact Hsorted].
    intros a b Hab. simpl in Hab. rewrite Hc in Hab. exact Hab.
Qed.

(** X22. Sorting again changes nothing: under a collation that orders all
    strings, the output of the React table sort on devices that carry
    their numeric fields is a fixed point of the same sort, for every
    field and direction; likewise for the script's sort on devices whose
    numeric fields are not zero.  Re-rendering unchanged data keeps the
    rows where they are. *)
Theorem table_sort_is_idempotent (s : SortSpec)
        (clients out : list ClientTraffic) :
  (Forall typed clients ->
   sortedClients localeCompare s clients = Js.Normal out ->
   sortedClients localeCompare s out = Js.Normal out)
  /\ (Forall nonzero clients ->
      sortedVanilla localeCompare s clients = Js.Normal out ->
      sortedVanilla localeCompare s out = Js.Normal out).
Proof.
  destruct s as [f dir]. split; intros Hall Hout.
  - destruct (@sort_sorted_by _ (compareReact localeCompare (mkSortSpec f dir))
                (comparisonValue localeCompare f dir)
                (comparisonValue_total f dir) (comparisonValue_trans f dir)
                clients) as (r & Hr & Hperm & Hsorted).
    { rewrite Forall_forall in Hall. intros x y Hx Hy.
      apply compareReact_value; auto. }
    unfold sortedClients in *. rewrite Hr in Hout. injection Hout as <-.
    apply sort_of_sorted with (c := comparisonValue localeCompare f dir); auto.
    intros x y Hx Hy. rewrite Forall_forall in Hall.
    apply compareReact_value; apply Hall;
      (eapply Permutation_in; [apply Permutation_sym, Hperm | eassumption]).
  - destruct (@sort_sorted_by _ (compareVanilla localeCompare (mkSortSpec f dir))
                (comparisonValue localeCompare f dir)
                (comparisonValue_total f dir) (comparisonValue_trans f dir)
                clients) as (r & Hr & Hperm & Hsorted).
    { rewrite Forall_forall in Hall. intros x y Hx Hy.
      apply compareVanilla_value; auto. }
    unfold sortedVanilla in *. rewrite Hr in Hout. injection Hout as <-.
    apply sort_of_sorted with (c := comparisonValue localeCompare f dir); auto.
    intros x y Hx Hy. rewrite Forall_forall in Hall.
    apply compareVanilla_value; apply Hall;
      (eapply Permutation_in; [apply Permutation_sym, Hperm | eassumption]).
Qed.

End Collation.

Lemma codeUnitCompare_sign (x y : string) :
  (Js.codeUnitCompare x y <= 0)%Z <-> String.compare x y <> Gt.
Proof.
  unfold Js.codeUnitCompare. destruct (String.compare x y); split;
    intros H; try lia; try discriminate; congruence.
Qed.

Lemma codeUnitCompare_collates : total_preorder Js.codeUnitCompare.
Proof.
  split.
  - intros x y H. apply codeUnitCompare_sign.
    unfold Js.codeUnitCompare in H.
    rewrite String.compare_antisym.
    destruct (String.compare x y); simpl; try lia; discriminate.
  - intros x y z Hxy Hyz. apply codeUnitCompare_sign in Hxy, Hyz.
    apply codeUnitCompare_sign.
    destruct (String.compare x y) eqn:E1; [| |congruence].
    + apply String.compare_eq_iff in E1. subst. exact Hyz.
    + destruct (String.compare y z) eqn:E2; [| |congruence].
      * apply String.compare_eq_iff in E2. subst. rewrite E1. discriminate.
      * apply OrderedTypeEx.String_as_OT.cmp_lt in E1, E2.
        pose proof (OrderedTypeEx.String_as_OT.lt_trans _ _ _ E1 E2) as H.
        apply OrderedTypeEx.String_as_OT.cmp_lt in H.
        unfold OrderedTypeEx.String_as_OT.cmp in H. rewrite H. discriminate.
Qed.

Lemma text_sort_follows_collation_witness :
  exists out,
    SortEngine.sortedClients Js.codeUnitCompare
      (SortEngine.mkSortSpec SortEngine.f_hostname SortEngine.asc)
      [named "zeta" 1; anonymous 1; named "alpha" 1] = Js.Normal out
    /\ Permutation [named "zeta" 1; anonymous 1; named "alpha" 1] out
    /\ StronglySorted
         (fun a b =>
            (directed Js.codeUnitCompare SortEngine.asc
                      (textKey SortEngine.f_hostname a)
                      (textKey SortEngine.f_hostname b) <= 0)%Z) out.
Proof.
  apply (proj1 (@text_sort_follows_collation Js.codeUnitCompare
                  codeUnitCompare_collates SortEngine.f_hostname SortEngine.asc
                  [named "zeta" 1; anonymous 1; named "alpha" 1] eq_refl)).
Defined.

Lemma table_sort_is_idempotent_witness :
  SortEngine.sortedClients Js.codeUnitCompare
    (SortEngine.mkSortSpec SortEngine.f_uploadSpeed SortEngine.desc)
    [deviceB; deviceA] = Js.Normal [deviceB; deviceA].
Proof.
  apply (proj1 (@table_sort_is_idempotent Js.codeUnitCompare
                  codeUnitCompare_collates
                  (SortEngine.mkSortSpec SortEngine.f_uploadSpeed SortEngine.desc)
                  [deviceA; deviceB] [deviceB; deviceA])).
  - repeat constructor; discriminate.
  - reflexivity.
Defined.

(** ** The operand order of the engine does not matter to a consistent
    comparator *)

Section OperandOrder.
Variable A : Type.
Variable comparefn : A -> A -> Js.completion Js.number.
Variable c : A -> A -> Z.
Variable P : A -> Prop.
Hypothesis c_consistent : consistent c.
Hypothesis comparefn_is_c :
  forall x y, P x -> P y -> comparefn x y = Js.Normal (Js.Fin (c x y)).

Lemma placeEarlier_Forall (Q : A -> Prop) (x : A) (t : list A) :
  Q x -> Forall Q t -> Forall Q (placeEarlier c x t).
Proof.
  intros Hx. induction 1 as [|y rest Hy Hrest IH]; simpl.
  - repeat constructor. exact Hx.
  - destruct (0 <? c x y)%Z; repeat constructor; auto.
Qed.

Lemma placeLater_Forall (Q : A -> Prop) (z : A) (t : list A) :
  Q z -> Forall Q t -> Forall Q (placeLater c z t).
Proof.
  intros Hz. induction 1 as [|y rest Hy Hrest IH]; simpl.
  - repeat constructor. exact Hz.
  - destruct (c z y <? 0)%Z; repeat constructor; auto.
Qed.

Lemma fold_placeEarlier_Forall (Q : A -> Prop) (l : list A) :
  Forall Q l -> Forall Q (fold_right (placeEarlier c) [] l).
Proof.
  induction 1 as [|x l Hx Hl IH]; simpl; [constructor|].
  apply placeEarlier_Forall; assumption.
Qed.

Lemma placeEarlier_sorted (x : A) (t : list A) :
  StronglySorted (fun a b => (c a b <= 0)%Z) t ->
  StronglySorted (fun a b => (c a b <= 0)%Z) (placeEarlier c x t).
Proof.
  destruct c_consistent as [Hsign Htrans].
  induction 1 as [|y rest Hrest IH Hy]; simpl.
  - repeat constructor.
  - destruct (Z.ltb_spec 0 (c x y)) as [Hpos|Hle].
    + constructor; [exact IH|].
      apply placeEarlier_Forall; [|exact Hy].
      apply Hsign in Hpos. lia.
    + constructor; [constructor; assumption|].
      constructor; [exact Hle|].
      eapply Forall_impl; [|exact Hy]. simpl. intros w Hw.
      eapply Htrans; eassumption.
Qed.

Lemma fold_placeEarlier_sorted (l : list A) :
  StronglySorted (fun a b => (c a b <= 0)%Z) (fold_right (placeEarlier c) [] l).
Proof.
  induction l as [|x l IH]; simpl; [constructor|].
  apply placeEarlier_sorted, IH.
Qed.

(** The two ways of placing a row commute. *)
Lemma placeEarlier_placeLater (x z : A) (t : list A) :
  placeEarlier c x (placeLater c z t) = placeLater c z (placeEarlier c x t).
Proof.
  destruct c_consistent as [Hsign Htrans].
  induction t as [|y rest IH]; simpl.
  - destruct (Z.ltb_spec 0 (c x z)) as [H1|H1];
      destruct (Z.ltb_spec (c z x) 0) as [H2|H2]; try reflexivity.
    + apply Hsign in H1. lia.
    + apply Hsign in H2. lia.
  - destruct (Z.ltb_spec (c z y) 0) as [Hzy|Hzy];
      destruct (Z.ltb_spec 0 (c x y)) as [Hxy|Hxy]; simpl.
    + assert (Hxz : (0 < c x z)%Z).
      { destruct (Z.ltb_spec 0 (c x z)) as [H|H]; [exact H|].
        exfalso.
        assert (c x y <= 0)%Z; [|lia].
        apply Htrans with (y := z); lia. }
      apply Z.ltb_lt in Hxz. rewrite Hxz.
      apply Z.ltb_lt in Hxy, Hzy. rewrite Hxy, Hzy. reflexivity.
    + destruct (Z.ltb_spec 0 (c x z)) as [H1|H1];
        destruct (Z.ltb_spec (c z x) 0) as [H2|H2].
      * assert (E : (0 <? c x y)%Z = false) by (apply Z.ltb_ge; lia).
        rewrite E. reflexivity.
      * apply Hsign in H1. lia.
      * apply Hsign in H2. lia.
      * assert (E : (c z y <? 0)%Z = true) by (apply Z.ltb_lt; lia).
        rewrite E. reflexivity.
    + assert (E1 : (0 <? c x y)%Z = true) by (apply Z.ltb_lt; lia).
      assert (E2 : (c z y <? 0)%Z = false) by (apply Z.ltb_ge; lia).
      rewrite E1, E2. rewrite IH. reflexivity.
    + assert (E1 : (0 <? c x y)%Z = false) by (apply Z.ltb_ge; lia).
      assert (E2 : (c z y <? 0)%Z = false) by (apply Z.ltb_ge; lia).
      rewrite E1, E2.
      assert (E3 : (c z x <? 0)%Z = false).
      { apply Z.ltb_ge.
        assert (Hyz : (c y z <= 0)%Z).
        { destruct (Z.ltb_spec 0 (c y z)) as [H|H]; [|exact H].
          apply Hsign in H. lia. }
        assert (Hxz : (c x z <= 0)%Z) by (eapply Htrans; eassumption).
        destruct (Z.ltb_spec (c z x) 0) as [H|H]; [|exact H].
        apply Hsign in H. lia. }
      rewrite E3. reflexivity.
Qed.

Lemma fold_placeEarlier_snoc (l : list A) (z : A) :
  fold_right (placeEarlier c) [] (l ++ [z])
  = placeLater c z (fold_right (placeEarlier c) [] l).
Proof.
  induction l as [|x l IH]; simpl; [reflexivity|].
  rewrite IH. apply placeEarlier_placeLater.
Qed.

Lemma placeLater_stops (z y : A) (t : list A) :
  (c z y < 0)%Z -> placeLater c z (t ++ [y]) = placeLater c z t ++ [y].
Proof.
  intros Hzy. induction t as [|w t IH]; simpl.
  - apply Z.ltb_lt in Hzy. rewrite Hzy. reflexivity.
  - destruct (c z w <? 0)%Z; [reflexivity|]. rewrite IH. reflexivity.
Qed.

Lemma placeLater_passes (z : A) (t : list A) :
  Forall (fun w => (0 <= c z w)%Z) t -> placeLater c z t = t ++ [z].
Proof.
  induction 1 as [|w t Hw Ht IH]; simpl; [reflexivity|].
  assert (E : (c z w <? 0)%Z = false) by (apply Z.ltb_ge; exact Hw).
  rewrite E, IH. reflexivity.
Qed.

Lemma sorted_snoc_inv (t : list A) (y : A) :
  StronglySorted (fun a b => (c a b <= 0)%Z) (t ++ [y]) ->
  StronglySorted (fun a b => (c a b <= 0)%Z) t
  /\ Forall (fun w => (c w y <= 0)%Z) t.
Proof.
  induction t as [|w t IH]; simpl; intros H.
  - split; constructor.
  - inversion H as [|? ? Hs Hw]; subst.
    destruct (IH Hs) as [Ht Hy].
    apply Forall_app in Hw. destruct Hw as [Hwt Hwy].
    inversion Hwy; subst.
    split; constructor; assumption.
Qed.

Lemma insert_is_placeEarlier (x : A) (t : list A) :
  P x -> Forall P t ->
  Js.insert comparefn x t = Js.Normal (placeEarlier c x t).
Proof.
  intros Hx. induction 1 as [|y rest Hy Hrest IH]; simpl; [reflexivity|].
  rewrite comparefn_is_c by assumption. simpl.
  destruct (0 <? c x y)%Z; [|reflexivity].
  rewrite IH. reflexivity.
Qed.

Lemma sort_is_fold (l : list A) :
  Forall P l ->
  Js.sort comparefn l = Js.Normal (fold_right (placeEarlier c) [] l).
Proof.
  induction 1 as [|x l Hx Hl IH]; simpl; [reflexivity|].
  rewrite IH. simpl. apply insert_is_placeEarlier; [exact Hx|].
  apply fold_placeEarlier_Forall, Hl.
Qed.

Lemma place_is_placeLater (z : A) (t : list A) :
  P z -> Forall P t ->
  StronglySorted (fun a b => (c a b <= 0)%Z) t ->
  Js.place comparefn z (rev t) = Js.Normal (rev (placeLater c z t)).
Proof.
  destruct c_consistent as [Hsign Htrans].
  intros Hz. induction t as [|y t IH] using rev_ind; intros HP Hs.
  - reflexivity.
  - apply Forall_app in HP. destruct HP as [HPt HPy]. inversion HPy; subst.
    apply sorted_snoc_inv in Hs. destruct Hs as [Hst Hty].
    rewrite rev_unit. simpl.
    rewrite comparefn_is_c by assumption. simpl.
    destruct (Z.ltb_spec (c z y) 0) as [Hzy|Hzy].
    + rewrite IH by assumption. simpl.
      rewrite placeLater_stops by exact Hzy.
      rewrite rev_unit. reflexivity.
    + rewrite placeLater_passes.
      * rewrite !rev_unit. reflexivity.
      * apply Forall_app. split; [|repeat constructor; exact Hzy].
        eapply Forall_impl; [|exact Hty]. simpl. intros w Hw.
        assert (Hyz : (c y z <= 0)%Z).
        { destruct (Z.ltb_spec 0 (c y z)) as [H|H]; [|exact H].
          apply Hsign in H. lia. }
        assert (Hwz : (c w z <= 0)%Z) by (eapply Htrans; eassumption).
        destruct (Z.ltb_spec (c z w) 0) as [H|H]; [|exact H].
        apply Hsign in H. lia.
Qed.

Lemma sort_backwards_is_fold (l : list A) :
  Forall P l ->
  Js.sort_backwards comparefn (rev l)
  = Js.Normal (rev (fold_right (placeEarlier c) [] l)).
Proof.
  induction l as [|z l IH] using rev_ind; intros HP; [reflexivity|].
  apply Forall_app in HP. destruct HP as [HPl HPz]. inversion HPz; subst.
  rewrite rev_unit. simpl. rewrite IH by assumption. simpl.
  rewrite place_is_placeLater.
  - rewrite fold_placeEarlier_snoc. reflexivity.
  - assumption.
  - apply fold_placeEarlier_Forall, HPl.
  - apply fold_placeEarlier_sorted.
Qed.

(** On rows that the comparator orders consistently, the insertion sort
    that passes the row it is placing first and the one that passes the
    earlier row first return the same list. *)
Lemma sorts_agree (l : list A) :
  Forall P l -> Js.sort_pivot_first comparefn l = Js.sort comparefn l.
Proof.
  intros HP. unfold Js.sort_pivot_first.
  rewrite sort_backwards_is_fold, sort_is_fold by assumption.
  simpl. rewrite rev_involutive. reflexivity.
Qed.

End OperandOrder.

Section OperandOrderOfTheTable.
Import Client SortEngine.
Variable localeCompare : string -> string -> Z.
Hypothesis collation_consistent : consistent localeCompare.

Lemma comparisonValue_consistent (f : SortField) (dir : SortDirection) :
  consistent (comparisonValue localeCompare f dir).
Proof.
  destruct collation_consistent as [Hsign Htrans].
  unfold consistent, comparisonValue.
  destruct (isNumeric f).
  - destruct dir; split; intros; lia.
  - destruct dir; simpl; split; intros; try apply Hsign; try assumption.
    + eapply Htrans; eassumption.
    + eapply Htrans; eassumption.
Qed.

(** On device lists that carry their numeric fields (in the script: none
    of them zero) and under a consistent collation, the table sort returns
    the same rows whichever operand order the engine uses. *)
Lemma table_sort_operand_order (s : SortSpec) (clients : list ClientTraffic) :
  (Forall typed clients ->
   Js.sort_pivot_first (compareReact localeCompare s) clients
   = sortedClients localeCompare s clients)
  /\ (Forall nonzero clients ->
      Js.sort_pivot_first (compareVanilla localeCompare s) clients
      = sortedVanilla localeCompare s clients).
Proof.
  destruct s as [f dir]. split; intros Hall.
  - apply sorts_agree with (c := comparisonValue localeCompare f dir)
                           (P := typed); auto.
    + apply comparisonValue_consistent.
    + intros x y Hx Hy. apply compareReact_value; assumption.
  - apply sorts_agree with (c := comparisonValue localeCompare f dir)
                           (P := nonzero); auto.
    + apply comparisonValue_consistent.
    + intros x y Hx Hy. apply compareVanilla_value; assumption.
Qed.

End OperandOrderOfTheTable.

Lemma codeUnitCompare_consistent : consistent Js.codeUnitCompare.
Proof.
  split; [|apply codeUnitCompare_collates].
  intros x y. unfold Js.codeUnitCompare.
  rewrite (String.compare_antisym x y).
  destruct (String.compare y x); simpl; lia.
Qed.
